(** * Loquendon't: directive parser, segment pipeline and assembler

    A shallow embedding of [Loquendon't.py].

    - Python [str] values are [string]s.  A character is one of the code
      points U+0000..U+00FF, carried by [ascii]; on that range the digit
      class of the regular expression, the white space class of
      [str.strip] and the case mapping of [str.lower] are the ones
      written out below.
    - Python integers are [Z]; [int] refuses more than 4300 digits, as
      the interpreter does unless told otherwise.
    - The file system, the two speech providers, the audio codec and the
      operating system are the outside world of the program: what the
      program does to them is recorded in a [world] that is passed
      along, and what they answer is read from an [env] of oracles.
    - [os.makedirs] and [print] are taken to succeed: a job is followed
      from the point where its temporary directory is there. *)

From Stdlib Require Import ZArith NArith Ascii String List Bool Lia.
From Stdlib Require Import DecimalString DecimalNat.
From stdpp Require Import base option list strings gmap.

Local Open Scope Z_scope.

(** ** Characters *)

Module Char.

Definition ord (c : ascii) : N := N_of_ascii c.

(** [\d] of [re] on a [str] pattern: the decimal digits. *)
Definition isdigit (c : ascii) : bool :=
  ((48 <=? ord c) && (ord c <=? 57))%N.

(** The characters [str.strip()] removes: TAB..CR, FS..US, space,
    NEL and the no-break space. *)
Definition isspace (c : ascii) : bool :=
  (((9 <=? ord c) && (ord c <=? 13)) || ((28 <=? ord c) && (ord c <=? 32))
   || (ord c =? 133) || (ord c =? 160))%N.

(** [str.lower()] on one character: A..Z and the capital letters
    U+00C0..U+00DE, the multiplication sign U+00D7 apart. *)
Definition lower (c : ascii) : ascii :=
  if (((65 <=? ord c) && (ord c <=? 90))
      || ((192 <=? ord c) && (ord c <=? 222) && negb (ord c =? 215)))%N
  then ascii_of_N (ord c + 32) else c.

Definition digit_value (c : ascii) : Z := Z.of_N (ord c) - 48.

(** The white space [int] allows around a number: of the characters
    [str.strip()] removes, all but FS..US. *)
Definition int_space (c : ascii) : bool :=
  isspace c && negb ((28 <=? ord c) && (ord c <=? 31))%N.

Definition eqb_nocase (a b : ascii) : bool := Ascii.eqb (lower a) (lower b).

End Char.

(** ** String methods *)

Module Str.

Fixpoint all (p : ascii -> bool) (s : string) : bool :=
  match s with
  | EmptyString => true
  | String c s' => p c && all p s'
  end.

Definition is_empty (s : string) : bool :=
  match s with EmptyString => true | String _ _ => false end.

(** [s.replace(old, new)] for a one-character [old]. *)
Fixpoint replace (old : ascii) (new : string) (s : string) : string :=
  match s with
  | EmptyString => EmptyString
  | String c s' =>
      if Ascii.eqb c old then new +:+ replace old new s'
      else String c (replace old new s')
  end.

Fixpoint lstrip_by (p : ascii -> bool) (s : string) : string :=
  match s with
  | EmptyString => EmptyString
  | String c s' => if p c then lstrip_by p s' else s
  end.

Fixpoint rstrip_by (p : ascii -> bool) (s : string) : string :=
  match s with
  | EmptyString => EmptyString
  | String c s' =>
      match rstrip_by p s' with
      | EmptyString => if p c then EmptyString else String c EmptyString
      | r => String c r
      end
  end.

Definition strip_by (p : ascii -> bool) (s : string) : string :=
  rstrip_by p (lstrip_by p s).

(** [s.strip()] *)
Definition strip (s : string) : string := strip_by Char.isspace s.

(** [s.strip(chars)] *)
Definition strip_chars (chars : string) (s : string) : string :=
  strip_by (fun c => existsb (Ascii.eqb c) (list_ascii_of_string chars)) s.

(** [s.lower()] *)
Fixpoint lower (s : string) : string :=
  match s with
  | EmptyString => EmptyString
  | String c s' => String (Char.lower c) (lower s')
  end.

(** The longest run of digits at the front of [s], and what follows. *)
Fixpoint span_digits (s : string) : string * string :=
  match s with
  | EmptyString => (EmptyString, EmptyString)
  | String c s' =>
      if Char.isdigit c
      then let (d, rest) := span_digits s' in (String c d, rest)
      else (EmptyString, s)
  end.

(** Digits with single underscores between them, as [int] reads them;
    [prev] tells whether the character before was a digit. *)
Fixpoint int_digits (acc : Z) (prev : bool) (s : string) : option Z :=
  match s with
  | EmptyString => if prev then Some acc else None
  | String c s' =>
      if Char.isdigit c then int_digits (10 * acc + Char.digit_value c) true s'
      else if Ascii.eqb c "_" && prev then int_digits acc false s'
      else None
  end.

(** How many characters of [s] satisfy [p]. *)
Fixpoint count (p : ascii -> bool) (s : string) : Z :=
  match s with
  | EmptyString => 0
  | String c s' => (if p c then 1 else 0) + count p s'
  end.

(** [sys.get_int_max_str_digits()], as the interpreter starts with. *)
Definition int_max_str_digits : Z := 4300.

(** The number after the sign: more digits than the interpreter
    converts are refused, underscores not counted. *)
Definition int_unsigned (r : string) : option Z :=
  if int_max_str_digits <? count Char.isdigit r then None
  else int_digits 0 false r.

(** [int(s)]: [None] stands for [ValueError]. *)
Definition int (s : string) : option Z :=
  match strip_by Char.int_space s with
  | String "+" r => int_unsigned r
  | String "-" r => Z.opp <$> int_unsigned r
  | r => int_unsigned r
  end.

(** The number a string of digits denotes. *)
Fixpoint decimal_from (acc : Z) (s : string) : Z :=
  match s with
  | EmptyString => acc
  | String c s' => decimal_from (10 * acc + Char.digit_value c) s'
  end.

Definition decimal (s : string) : Z := decimal_from 0 s.

(** [str(n)] for a natural number, as an f-string prints it. *)
Definition of_nat (n : nat) : string := NilZero.string_of_uint (Nat.to_uint n).

End Str.

(** ** The directive pattern *)

(** [VOICE_CMD_PATTERN = re.compile(r'/voice=(\d+)', re.IGNORECASE)] *)
Module VOICE_CMD_PATTERN.

Definition tag : string := "/voice=".

(** [tag] at the front of [s], letters compared without case: what
    follows it. *)
Fixpoint after_tag (pat s : string) : option string :=
  match pat, s with
  | EmptyString, _ => Some s
  | String p pat', String c s' =>
      if Char.eqb_nocase c p then after_tag pat' s' else None
  | String _ _, EmptyString => None
  end.

(** [VOICE_CMD_PATTERN.match(s)]: the pattern at position 0 of [s].
    [Some (d, rest)] gives group 1 and the text after the match. *)
Definition match_ (s : string) : option (string * string) :=
  match after_tag tag s with
  | Some t =>
      match Str.span_digits t with
      | (EmptyString, _) => None
      | (d, rest) => Some (d, rest)
      end
  | None => None
  end.

(** The scan of [re.split]: [chunk] is the text read since the last
    match.  Every step consumes at least one character of [s], so
    [fuel] above the length of [s] is never used up. *)
Fixpoint split_scan (fuel : nat) (chunk s : string) : list string :=
  match fuel with
  | O => [chunk]
  | S fuel' =>
      match match_ s with
      | Some (d, rest) => chunk :: d :: split_scan fuel' EmptyString rest
      | None =>
          match s with
          | EmptyString => [chunk]
          | String c s' => split_scan fuel' (chunk +:+ String c EmptyString) s'
          end
      end
  end.

(** [VOICE_CMD_PATTERN.split(s)]: the text chunks at the even
    positions, the captured digits at the odd ones. *)
Definition split (s : string) : list string :=
  split_scan (S (String.length s)) EmptyString s.

End VOICE_CMD_PATTERN.

(** ** DirectiveParser: [parse_input_file] *)

Record Segment := { text : string; voice_index : Z }.

(** The [while i < len(parts)] loop of [parse_input_file]. *)
Fixpoint parse_loop (parts : list string) (current_voice_index : Z)
    (segments : list Segment) : list Segment :=
  match parts with
  | [] => segments
  | raw :: rest =>
      let part := Str.strip raw in
      if Str.is_empty part then parse_loop rest current_voice_index segments
      else
        match VOICE_CMD_PATTERN.match_ (VOICE_CMD_PATTERN.tag +:+ part) with
        | Some _ =>
            match Str.int part with
            | Some n => parse_loop rest n segments
            | None => parse_loop rest current_voice_index segments
            end
        | None =>
            parse_loop rest current_voice_index
              (segments ++ [{| text := part; voice_index := current_voice_index |}])
        end
  end.

(** [content.replace('\n', ' ').replace('\r', '')] *)
Definition normalize (content : string) : string :=
  Str.replace "013" "" (Str.replace "010" " " content).

(** [parse_input_file] from the point where the file has been read. *)
Definition parse_content (content : string) (default_voice_index : Z) : list Segment :=
  let content := normalize content in
  let parts := VOICE_CMD_PATTERN.split content in
  parse_loop parts default_voice_index [].

(** The parts of a split: a chunk of text, then any number of times
    the digits of a directive and the chunk of text after it. *)
Inductive alternates : list string -> Prop :=
| alternates_last (chunk : string) : alternates [chunk]
| alternates_more (chunk digits : string) (rest : list string) :
    Str.is_empty digits = false ->
    Str.all Char.isdigit digits = true ->
    alternates rest ->
    alternates (chunk :: digits :: rest).

(** The chunks of text among the parts: the even positions. *)
Fixpoint text_chunks (parts : list string) : list string :=
  match parts with
  | [] => []
  | chunk :: rest =>
      chunk :: match rest with
               | [] => []
               | _ :: rest' => text_chunks rest'
               end
  end.

(** The digits of the directives among the parts: the odd positions. *)
Fixpoint digit_groups (parts : list string) : list string :=
  match parts with
  | _ :: digits :: rest => digits :: digit_groups rest
  | _ => []
  end.

(** Digits that [int] converts: no more of them than its limit. *)
Definition within_int_limit (digits : string) : Prop :=
  Z.of_nat (String.length digits) <= Str.int_max_str_digits.

(** A chunk that does not begin with a digit once it is trimmed. *)
Definition not_digit_led (chunk : string) : Prop :=
  match Str.strip chunk with
  | String c _ => Char.isdigit c = false
  | EmptyString => True
  end.

(** The segments as the specification describes them: every directive
    moves the cursor, and every chunk of text that is not empty once
    trimmed becomes a segment under the cursor. *)
Fixpoint described_segments (cursor : Z) (parts : list string) : list Segment :=
  match parts with
  | [] => []
  | chunk :: rest =>
      (if Str.is_empty (Str.strip chunk) then []
       else [{| text := Str.strip chunk; voice_index := cursor |}])
      ++ match rest with
         | [] => []
         | digits :: rest' => described_segments (Str.decimal digits) rest'
         end
  end.

(** ** VoiceCatalog: [UnifiedTTSEngine] *)

Inductive engine_kind := pyttsx3 | edge_tts.

Module Voice.
(** One entry of [unified_voices]. *)
Record t := mk {
  index : nat;
  engine : engine_kind;
  name : string;
  id : string;
  lang : string
}.
End Voice.

Record UnifiedTTSEngine := {
  unified_voices : list Voice.t;
  pyttsx3_available : bool
}.

(** What the two providers list. *)
Record Pyttsx3Voice := { sapi_name : string; sapi_id : string; sapi_languages : list string }.
Record EdgeVoice := { Name : string; ShortName : string; Locale : string }.

(** A Python subscript [l[i]]: a negative [i] counts from the end;
    [None] stands for [IndexError]. *)
Definition py_getitem {A : Type} (l : list A) (i : Z) : option A :=
  let n := Z.of_nat (length l) in
  if 0 <=? i then (if i <? n then l !! Z.to_nat i else None)
  else if - n <=? i then l !! Z.to_nat (n + i)
  else None.

Definition get_voice_by_index (self : UnifiedTTSEngine) (index : Z) : option Voice.t :=
  py_getitem (unified_voices self) index.

(** [_map_pyttsx3_voices]: [listed] are the voices the loop appended
    before the [try] was left, and [completed] tells that it was left
    without an exception ([pyttsx3.init()] raising gives no voice and
    [false]). *)
Definition map_pyttsx3_voices (listed : list Pyttsx3Voice) (completed : bool)
    (voices : list Voice.t) : list Voice.t * bool :=
  (fold_left
     (fun acc v =>
        acc ++ [Voice.mk (length acc) pyttsx3 (sapi_name v) (sapi_id v)
                  (hd "N/A" (sapi_languages v))])
     listed voices, completed).

(** [_map_edge_tts_voices]: [listed] are the voices appended before
    the [try] was left (none when [edge_tts.list_voices()] raises). *)
Definition map_edge_tts_voices (listed : list EdgeVoice)
    (voices : list Voice.t) : list Voice.t :=
  fold_left
    (fun acc v =>
       acc ++ [Voice.mk (length acc) edge_tts (Name v) (ShortName v) (Locale v)])
    listed voices.

(** [UnifiedTTSEngine.__init__]; [None] stands for [sys.exit(1)]. *)
Definition UnifiedTTSEngine_init (local : list Pyttsx3Voice) (completed : bool)
    (online : list EdgeVoice) : option UnifiedTTSEngine :=
  let '(voices, available) := map_pyttsx3_voices local completed [] in
  let voices := map_edge_tts_voices online voices in
  match voices with
  | [] => None
  | _ => Some {| unified_voices := voices; pyttsx3_available := available |}
  end.

(** ** The outside world *)

(** Decoded audio, as [pydub.AudioSegment] holds it: [AudioSegment.empty()]
    is [[]] and [+] appends. *)
Definition AudioSegment := list Z.

Inductive message :=
| ErrInputNotFound (path : string)
| ErrInputOpen (path : string)
| SayNoSegments
| SayStartSynthesis
| WarnOutOfRange (voice_index default_voice_index : Z)
| ErrVoiceNotFound (voice_index : Z)
| SaySynthesizing (voice_index : Z) (kind : engine_kind) (text output_filepath : string)
| SayDebug (kind : engine_kind) (ext : string)
| ErrPyttsx3Unavailable
| ErrSynthesizing (kind : engine_kind)
| ErrSegmentFailed (i : nat)
| ErrNoAudio
| SayStartConcatenation
| ErrLoading (temp_path : string)
| SayExporting (output_file : string)
| SaySuccess (output_file : string)
| FatalExport
| SayCleanedUp
| SayPathsEmpty
| ErrUnexpected.

Inductive call :=
| Makedirs (dir : string)
| Provider (voice : Voice.t) (text output_filepath : string)
| FromFile (temp_path : string)
| Export (output_file format : string) (audio : AudioSegment)
| Remove (temp_path : string)
| Rmdir (dir : string).

Inductive event := Printed (m : message) | Called (c : call).

(** The audio files on disk and everything printed or called so far. *)
Record world := {
  files : gmap string AudioSegment;
  log : list event
}.

Inductive read_result := ReadOk (content : string) | FileNotFound | ReadError.

(** What a provider does when asked to save a text: it may write the
    file, and it may raise. *)
Record provider_answer := { written : option AudioSegment; raised : bool }.

(** [exportable] tells whether [AudioSegment.export] succeeds for a
    path and a format.  When it does not, [failed_export_leaves] tells
    how far it came: [None] when the path could not be opened, and
    otherwise the content of the file it opened (opening empties it)
    and did not finish. *)
Record env := {
  os_sep : ascii;
  os_altsep : option ascii;
  read_text : string -> read_result;
  provider : Voice.t -> string -> string -> provider_answer;
  decodable : string -> bool;
  exportable : string -> string -> bool;
  failed_export_leaves : string -> string -> option AudioSegment;
  removable : string -> bool;
  rmdir_allowed : bool
}.

Definition record (e : event) (w : world) : world :=
  {| files := files w; log := log w ++ [e] |}.

Definition say (m : message) : world -> world := record (Printed m).

Definition calling (c : call) : world -> world := record (Called c).

Definition write_file (path : string) (a : AudioSegment) (w : world) : world :=
  {| files := <[path := a]> (files w); log := log w |}.

Definition delete_file (path : string) (w : world) : world :=
  {| files := delete path (files w); log := log w |}.

(** [os.path.exists] *)
Definition path_exists (path : string) (w : world) : bool :=
  bool_decide (is_Some (files w !! path)).

(** ** [os.path] *)

Module Path.

(** [os.path.join(a, b)] for a relative [b] and an [a] that does not
    end in a separator. *)
Definition join (E : env) (a b : string) : string :=
  a +:+ String (os_sep E) EmptyString +:+ b.

(** [s.rfind(c)]: the last position of [c], or [-1]. *)
Fixpoint rfind (c : ascii) (s : string) : Z :=
  match s with
  | EmptyString => -1
  | String a s' =>
      let r := rfind c s' in
      if 0 <=? r then r + 1 else if Ascii.eqb a c then 0 else -1
  end.

Fixpoint take (n : nat) (s : string) : string :=
  match n, s with
  | S n', String c s' => String c (take n' s')
  | _, _ => EmptyString
  end.

Fixpoint drop (n : nat) (s : string) : string :=
  match n, s with
  | S n', String _ s' => drop n' s'
  | _, _ => s
  end.

(** The [while filenameIndex < dotIndex] loop of [_splitext], with
    [n] positions left: is there a character other than the dot? *)
Fixpoint name_starts (n : nat) (filenameIndex : nat) (p : string) : bool :=
  match n with
  | O => false
  | S n' =>
      match String.get filenameIndex p with
      | Some c =>
          if Ascii.eqb c "." then name_starts n' (S filenameIndex) p else true
      | None => true
      end
  end.

(** [os.path.splitext(p)], after [genericpath._splitext]. *)
Definition splitext (E : env) (p : string) : string * string :=
  let sepIndex :=
    match os_altsep E with
    | Some alt => Z.max (rfind (os_sep E) p) (rfind alt p)
    | None => rfind (os_sep E) p
    end in
  let dotIndex := rfind "." p in
  if sepIndex <? dotIndex then
    if name_starts (Z.to_nat (dotIndex - (sepIndex + 1))) (Z.to_nat (sepIndex + 1)) p
    then (take (Z.to_nat dotIndex) p, drop (Z.to_nat dotIndex) p)
    else (p, EmptyString)
  else (p, EmptyString).

End Path.

(** ** [parse_input_file] *)

Definition parse_input_file (E : env) (input_filepath : string)
    (default_voice_index : Z) (w : world) : list Segment * world :=
  match read_text E input_filepath with
  | FileNotFound => ([], say (ErrInputNotFound input_filepath) w)
  | ReadError => ([], say (ErrInputOpen input_filepath) w)
  | ReadOk content => (parse_content content default_voice_index, w)
  end.

(** ** SynthesisBackend: [synthesize_segment] *)

Definition TEMP_DIR : string := "tts_temp_segments".

(** The [try] of either branch of [synthesize_segment]: the provider
    is asked to save [text] to [output_filepath]; an exception is
    reported and gives [None], and so does a file that is not there
    afterwards. *)
Definition try_provider (E : env) (voice : Voice.t) (text output_filepath : string)
    (w : world) : option string * world :=
  let w := calling (Provider voice text output_filepath) w in
  let answer := provider E voice text output_filepath in
  let w :=
    match written answer with
    | Some a => write_file output_filepath a w
    | None => w
    end in
  if raised answer then (None, say (ErrSynthesizing (Voice.engine voice)) w)
  else if path_exists output_filepath w then (Some output_filepath, w)
  else (None, w).

(** [ext = '.wav' if voice['engine'] == 'pyttsx3' else '.mp3'] *)
Definition ext_of (kind : engine_kind) : string :=
  match kind with pyttsx3 => ".wav" | edge_tts => ".mp3" end.

Definition synthesize_segment (E : env) (self : UnifiedTTSEngine)
    (text : string) (voice_index : Z) (base_output_path : string)
    (w : world) : option string * world :=
  match get_voice_by_index self voice_index with
  | None => (None, say (ErrVoiceNotFound voice_index) w)
  | Some voice =>
      let ext := ext_of (Voice.engine voice) in
      let output_filepath := base_output_path +:+ ext in
      let w := say (SaySynthesizing voice_index (Voice.engine voice) text output_filepath) w in
      let w := say (SayDebug (Voice.engine voice) ext) w in
      match Voice.engine voice with
      | pyttsx3 =>
          if negb (pyttsx3_available self) then (None, say ErrPyttsx3Unavailable w)
          else try_provider E voice text output_filepath w
      | edge_tts => try_provider E voice text output_filepath w
      end
  end.

(** ** SegmentPipeline and Assembler: [process_and_concatenate] *)

Definition base_temp_path (E : env) (i : nat) : string :=
  Path.join E TEMP_DIR ("segment_" +:+ Str.of_nat i).

(** The body of [for i, segment in enumerate(segments)] up to the
    call: the voice index the segment is synthesized with (the one
    written back into the segment), what [synthesize_segment] returned,
    and the world after it. *)
Definition synthesize_one (E : env) (engine : UnifiedTTSEngine)
    (default_voice_index : Z) (i : nat) (segment : Segment) (w : world)
    : Z * option string * world :=
  let '(voice_index, w) :=
    if Z.of_nat (length (unified_voices engine)) <=? voice_index segment
    then (default_voice_index,
          say (WarnOutOfRange (voice_index segment) default_voice_index) w)
    else (voice_index segment, w) in
  let '(final_temp_path, w) :=
    synthesize_segment E engine (text segment) voice_index (base_temp_path E i) w in
  (voice_index, final_temp_path, w).

Fixpoint synthesis_loop (E : env) (engine : UnifiedTTSEngine)
    (default_voice_index : Z) (i : nat) (segments : list Segment)
    (temp_files : list string) (successful_segments : nat) (w : world)
    : list string * nat * world :=
  match segments with
  | [] => (temp_files, successful_segments, w)
  | segment :: rest =>
      match synthesize_one E engine default_voice_index i segment w with
      | (_, Some final_temp_path, w) =>
          synthesis_loop E engine default_voice_index (S i) rest
            (temp_files ++ [final_temp_path]) (S successful_segments) w
      | (_, None, w) =>
          synthesis_loop E engine default_voice_index (S i) rest
            temp_files successful_segments (say (ErrSegmentFailed i) w)
      end
  end.

(** Steps 1 and 2 of [process_and_concatenate]: the temporary
    directory, which [os.makedirs] is taken to create or to find, then
    the loop from [i = 0] with no file and no success yet. *)
Definition synthesis_phase (E : env) (engine : UnifiedTTSEngine)
    (default_voice_index : Z) (segments : list Segment) (w : world)
    : list string * nat * world :=
  let w := calling (Makedirs TEMP_DIR) w in
  let w := say SayStartSynthesis w in
  synthesis_loop E engine default_voice_index 0 segments [] 0 w.

(** [AudioSegment.from_file]; [None] stands for the exception. *)
Definition from_file (E : env) (temp_path : string) (w : world) : option AudioSegment :=
  match files w !! temp_path with
  | Some a => if decodable E temp_path then Some a else None
  | None => None
  end.

(** The [for temp_path in temp_files] loop of step 3. *)
Fixpoint concatenation_loop (E : env) (temp_files : list string)
    (combined_audio : AudioSegment) (w : world) : AudioSegment * world :=
  match temp_files with
  | [] => (combined_audio, w)
  | temp_path :: rest =>
      let w := calling (FromFile temp_path) w in
      match from_file E temp_path w with
      | Some segment_audio => concatenation_loop E rest (combined_audio ++ segment_audio) w
      | None => concatenation_loop E rest combined_audio (say (ErrLoading temp_path) w)
      end
  end.

(** The path and the format the export is called with. *)
Definition export_target (E : env) (output_file : string) : string * string :=
  let extension := Str.strip_chars "." (Str.lower (snd (Path.splitext E output_file))) in
  if Str.is_empty extension then (output_file +:+ ".wav", "wav")
  else (output_file, extension).

(** Step 4, the [try] around the export.  [AudioSegment.export] opens
    its target for writing before it encodes: an export that fails
    after that has emptied the target and leaves there what it wrote
    until then, one that could not open it leaves no trace. *)
Definition export_final (E : env) (combined_audio : AudioSegment)
    (output_file : string) (w : world) : world :=
  let w := say (SayExporting output_file) w in
  let '(output_file, extension) := export_target E output_file in
  let w := calling (Export output_file extension combined_audio) w in
  if exportable E output_file extension
  then say (SaySuccess output_file) (write_file output_file combined_audio w)
  else
    let w :=
      match failed_export_leaves E output_file extension with
      | Some partial => write_file output_file partial w
      | None => w
      end in
    say FatalExport w.

(** How a call ends: it returns, or an exception leaves it. *)
Inductive completion := Returns | Raises.

(** [os.remove] *)
Definition os_remove (E : env) (path : string) (w : world) : completion * world :=
  let w := calling (Remove path) w in
  if path_exists path w && removable E path then (Returns, delete_file path w)
  else (Raises, w).

(** [os.rmdir] *)
Definition os_rmdir (E : env) (dir : string) (w : world) : completion * world :=
  let w := calling (Rmdir dir) w in
  if rmdir_allowed E then (Returns, w) else (Raises, w).

(** Step 5: nothing catches what [os.remove] or [os.rmdir] raises. *)
Fixpoint remove_loop (E : env) (temp_files : list string) (w : world)
    : completion * world :=
  match temp_files with
  | [] => (Returns, w)
  | temp_path :: rest =>
      match os_remove E temp_path w with
      | (Returns, w) => remove_loop E rest w
      | (Raises, w) => (Raises, w)
      end
  end.

Definition cleanup (E : env) (temp_files : list string) (w : world)
    : completion * world :=
  match remove_loop E temp_files w with
  | (Returns, w) =>
      match os_rmdir E TEMP_DIR w with
      | (Returns, w) => (Returns, say SayCleanedUp w)
      | (Raises, w) => (Raises, w)
      end
  | (Raises, w) => (Raises, w)
  end.

(** [process_and_concatenate] from the parsed [segments] on.
    ([os.makedirs] with [exist_ok=True] is taken to succeed.) *)
Definition process_segments (E : env) (engine : UnifiedTTSEngine)
    (default_voice_index : Z) (segments : list Segment) (output_file : string)
    (w : world) : completion * world :=
  match segments with
  | [] => (Returns, say SayNoSegments w)
  | _ =>
      let '(temp_files, successful_segments, w) :=
        synthesis_phase E engine default_voice_index segments w in
      if Nat.eqb successful_segments 0 then (Returns, say ErrNoAudio w)
      else
        let w := say SayStartConcatenation w in
        let '(combined_audio, w) := concatenation_loop E temp_files [] w in
        let w := export_final E combined_audio output_file w in
        cleanup E temp_files w
  end.

Definition process_and_concatenate (E : env) (engine : UnifiedTTSEngine)
    (input_file output_file : string) (w : world) : completion * world :=
  let default_voice_index := 0 in
  let '(segments, w) := parse_input_file E input_file default_voice_index w in
  process_segments E engine default_voice_index segments output_file w.

(** Choice 2 of [main_menu], once both paths have been read. *)
Definition menu_process (E : env) (engine : UnifiedTTSEngine)
    (input_file output_file : string) (w : world) : world :=
  if Str.is_empty input_file || Str.is_empty output_file then say SayPathsEmpty w
  else
    match process_and_concatenate E engine input_file output_file w with
    | (Returns, w) => w
    | (Raises, w) => say ErrUnexpected w
    end.

(** ** The per-segment results *)

(** What [synthesize_segment] returns for each segment in turn, in the
    worlds the loop passes through: [final_temp_path] of every turn. *)
Fixpoint synthesis_results (E : env) (engine : UnifiedTTSEngine)
    (default_voice_index : Z) (i : nat) (segments : list Segment) (w : world)
    : list (option string) :=
  match segments with
  | [] => []
  | segment :: rest =>
      match synthesize_one E engine default_voice_index i segment w with
      | (_, Some final_temp_path, w) =>
          Some final_temp_path
          :: synthesis_results E engine default_voice_index (S i) rest w
      | (_, None, w) =>
          None
          :: synthesis_results E engine default_voice_index (S i) rest
               (say (ErrSegmentFailed i) w)
      end
  end.

(** The results of a whole job, from the world [synthesis_phase]
    starts its loop in. *)
Definition phase_results (E : env) (engine : UnifiedTTSEngine)
    (default_voice_index : Z) (segments : list Segment) (w : world)
    : list (option string) :=
  synthesis_results E engine default_voice_index 0 segments
    (say SayStartSynthesis (calling (Makedirs TEMP_DIR) w)).

(** Events of steps 3 to 5: loading, exporting, cleaning up. *)
Definition is_assembly (e : event) : bool :=
  match e with
  | Called (FromFile _) | Called (Export _ _ _)
  | Called (Remove _) | Called (Rmdir _)
  | Printed SayStartConcatenation | Printed (ErrLoading _)
  | Printed (SayExporting _) | Printed (SaySuccess _)
  | Printed FatalExport | Printed SayCleanedUp => true
  | _ => false
  end.

(** ** Sample catalogs and worlds *)

Definition david : Voice.t := Voice.mk 0 pyttsx3 "David" "TTS_MS_EN-US_DAVID" "N/A".
Definition aria : Voice.t := Voice.mk 1 edge_tts "AriaNeural" "en-US-AriaNeural" "en-US".

Definition two_voices : UnifiedTTSEngine :=
  {| unified_voices := [david; aria]; pyttsx3_available := true |}.

Definition empty_world : world := {| files := ∅; log := [] |}.

(** The file "input.txt" holds two segments for two voices.  Each
    provider saves one sample, the length of the text; the codec and
    the operating system do everything they are asked. *)
Definition fair_weather : env :=
  {| os_sep := "/";
     os_altsep := None;
     read_text := fun path =>
       if String.eqb path "input.txt" then ReadOk "Hello. /voice=1 Bye"
       else FileNotFound;
     provider := fun _ text _ =>
       {| written := Some [Z.of_nat (String.length text)]; raised := false |};
     decodable := fun _ => true;
     exportable := fun _ _ => true;
     failed_export_leaves := fun _ _ => None;
     removable := fun _ => true;
     rmdir_allowed := true |}.

(** The same, but the codec cannot read the file at [path]. *)
Definition unreadable (path : string) (E : env) : env :=
  {| os_sep := os_sep E;
     os_altsep := os_altsep E;
     read_text := read_text E;
     provider := provider E;
     decodable := fun p => negb (String.eqb p path) && decodable E p;
     exportable := exportable E;
     failed_export_leaves := failed_export_leaves E;
     removable := removable E;
     rmdir_allowed := rmdir_allowed E |}.


(** The same, but the file at [path] cannot be removed. *)
Definition locked (path : string) (E : env) : env :=
  {| os_sep := os_sep E;
     os_altsep := os_altsep E;
     read_text := read_text E;
     provider := provider E;
     decodable := decodable E;
     exportable := exportable E;
     failed_export_leaves := failed_export_leaves E;
     removable := fun p => negb (String.eqb p path) && removable E p;
     rmdir_allowed := rmdir_allowed E |}.

(** The same, but no provider ever saves a file. *)
Definition silent (E : env) : env :=
  {| os_sep := os_sep E;
     os_altsep := os_altsep E;
     read_text := read_text E;
     provider := fun _ _ _ => {| written := None; raised := true |};
     decodable := decodable E;
     exportable := exportable E;
     failed_export_leaves := failed_export_leaves E;
     removable := removable E;
     rmdir_allowed := rmdir_allowed E |}.

(** ** [list_voices] *)

Module Show.

(** [c * n] *)
Fixpoint times (n : nat) (c : ascii) : string :=
  match n with
  | O => EmptyString
  | S n' => String c (times n' c)
  end.

(** [s.ljust(width)], and [{s:<width}] in an f-string. *)
Definition ljust (width : nat) (s : string) : string :=
  s +:+ times (width - String.length s) " ".

(** [voice['engine']] as the catalog stores it. *)
Definition engine_name (kind : engine_kind) : string :=
  match kind with pyttsx3 => "pyttsx3" | edge_tts => "edge-tts" end.

(** [name = voice['name'] if voice['engine'] == 'pyttsx3' else voice['id']] *)
Definition listed_name (voice : Voice.t) : string :=
  match Voice.engine voice with
  | pyttsx3 => Voice.name voice
  | edge_tts => Voice.id voice
  end.

(** [(name[:47] + '...') if len(name) > 50 else name.ljust(50)] *)
Definition display_name (name : string) : string :=
  if (50 <? String.length name)%nat then Path.take 47 name +:+ "..."
  else ljust 50 name.

(** The line printed for one voice. *)
Definition voice_row (voice : Voice.t) : string :=
  "| " +:+ ljust 3 (Str.of_nat (Voice.index voice))
  +:+ " | " +:+ ljust 10 (engine_name (Voice.engine voice))
  +:+ " | " +:+ display_name (listed_name voice)
  +:+ " | " +:+ ljust 10 (Voice.lang voice) +:+ " |".

Definition header_row : string :=
  "| " +:+ ljust 3 "ID" +:+ " | " +:+ ljust 10 "Engine"
  +:+ " | " +:+ ljust 50 "Name" +:+ " | " +:+ ljust 10 "Language" +:+ " |".

Definition rule_row : string :=
  "|" +:+ times 3 "-" +:+ "|" +:+ times 10 "-" +:+ "|" +:+ times 50 "-"
  +:+ "|" +:+ times 10 "-" +:+ "|".

(** [list_voices]: the arguments of its [print] calls, in order. *)
Definition list_voices (self : UnifiedTTSEngine) : list string :=
  [ String "010" "--- Available TTS Voices ---"; header_row; rule_row ]
  ++ map voice_row (unified_voices self)
  ++ [ "----------------------------" +:+ String "010" EmptyString ].

End Show.

(** ** Predicates of the statements *)

(** Indices are dense: the voice at position [k] carries index [k]. *)
Definition dense (voices : list Voice.t) : Prop :=
  forall k v, voices !! k = Some v -> Voice.index v = k.

(** From [w] to [w'] the log has only grown, by events that satisfy [P]. *)
Definition adds (P : event -> Prop) (w w' : world) : Prop :=
  exists evs, log w' = log w ++ evs /\ Forall P evs.

(** Every file of [w] is still there in [w']. *)
Definition files_kept (w w' : world) : Prop :=
  forall q, is_Some (files w !! q) -> is_Some (files w' !! q).

(** The two names [synthesize_segment] can give the file of segment [i]. *)
Definition temp_path_of (E : env) (i : nat) (path : string) : Prop :=
  path = base_temp_path E i +:+ ".wav" \/ path = base_temp_path E i +:+ ".mp3".

Definition synthesis_only (e : event) : Prop := is_assembly e = false.

Definition assembly_only (e : event) : Prop := is_assembly e = true.

(** Anything but the report that a voice was not found, or a warning
    about a voice index that is within the catalog. *)
Definition well_reported (engine : UnifiedTTSEngine) (e : event) : Prop :=
  match e with
  | Printed (ErrVoiceNotFound _) => False
  | Printed (WarnOutOfRange voice_index _) =>
      Z.of_nat (length (unified_voices engine)) <= voice_index
  | _ => True
  end.

(** Neither a line feed nor a carriage return. *)
Definition no_line_break (c : ascii) : bool :=
  negb (Ascii.eqb c "010") && negb (Ascii.eqb c "013").

(** What step 3 logs for the temporary files as they are in [w]: the
    call for each file in turn, followed by the report when the file
    cannot be loaded. *)
Definition loading_events (E : env) (w : world) (temp_files : list string) : list event :=
  flat_map
    (fun temp_path =>
       Called (FromFile temp_path)
       :: match from_file E temp_path w with
          | Some _ => []
          | None => [Printed (ErrLoading temp_path)]
          end)
    temp_files.

(** The calls of step 5. *)
Definition removal (e : event) : Prop :=
  match e with
  | Called (Remove _) | Called (Rmdir _) => True
  | _ => False
  end.

(** * Properties *)

(** ** Strings and the pattern *)

Lemma digit_not_space c : Char.isdigit c = true -> Char.isspace c = false.
Proof.
  destruct c as [[] [] [] [] [] [] [] []]; vm_compute; congruence.
Qed.

Lemma is_empty_false s :
  Str.is_empty s = false <-> exists c s', s = String c s'.
Proof.
  destruct s as [|c s']; simpl; split; try congruence.
  - intros (c & s' & H). discriminate H.
  - eauto.
Qed.

Lemma digit_not_int_space c : Char.isdigit c = true -> Char.int_space c = false.
Proof. intros H. unfold Char.int_space. now rewrite (digit_not_space c H). Qed.

(** Stripping takes nothing off a string of digits. *)
Lemma rstrip_by_digits p s :
  (forall c, Char.isdigit c = true -> p c = false) ->
  Str.all Char.isdigit s = true -> Str.rstrip_by p s = s.
Proof.
  intros Hp. induction s as [|c s IH]; simpl; [reflexivity|].
  intros [Hc Hs]%andb_prop. rewrite (IH Hs).
  destruct s; [|reflexivity]. now rewrite (Hp c Hc).
Qed.

Lemma strip_by_digits p s :
  (forall c, Char.isdigit c = true -> p c = false) ->
  Str.all Char.isdigit s = true -> Str.strip_by p s = s.
Proof.
  intros Hp H. unfold Str.strip_by.
  destruct s as [|c s]; [reflexivity|].
  pose proof H as [Hc _]%andb_prop. simpl Str.lstrip_by.
  rewrite (Hp c Hc). now apply rstrip_by_digits.
Qed.

Lemma strip_digits s : Str.all Char.isdigit s = true -> Str.strip s = s.
Proof. apply strip_by_digits, digit_not_space. Qed.

Lemma count_all p s : Str.all p s = true -> Str.count p s = Z.of_nat (String.length s).
Proof.
  induction s as [|c s IH]; [reflexivity|].
  intros [Hc Hs]%andb_prop. cbn [Str.count String.length]. rewrite Hc, (IH Hs). lia.
Qed.

Lemma digit_is_no_sign c s :
  Char.isdigit c = true ->
  match String c s with
  | String "+" r => Str.int_unsigned r
  | String "-" r => Z.opp <$> Str.int_unsigned r
  | r => Str.int_unsigned r
  end = Str.int_unsigned (String c s).
Proof.
  intros Hc.
  destruct c as [[] [] [] [] [] [] [] []];
    try (vm_compute in Hc; discriminate Hc); reflexivity.
Qed.

Lemma int_digits_all acc prev s :
  Str.all Char.isdigit s = true ->
  Str.int_digits acc prev s =
  match s with
  | EmptyString => if prev then Some acc else None
  | String _ _ => Some (Str.decimal_from acc s)
  end.
Proof.
  revert acc prev. induction s as [|c s IH]; intros acc prev H; [reflexivity|].
  simpl in H. apply andb_prop in H as [Hc Hs]. simpl. rewrite Hc.
  rewrite (IH _ true Hs). now destruct s.
Qed.

(** [int] reads a non-empty string of digits as the number it denotes,
    up to the interpreter's limit on their number. *)
Lemma int_of_digits s :
  Str.is_empty s = false -> Str.all Char.isdigit s = true ->
  Z.of_nat (String.length s) <= Str.int_max_str_digits ->
  Str.int s = Some (Str.decimal s).
Proof.
  intros Hne Hd Hlen. unfold Str.int.
  rewrite (strip_by_digits _ s digit_not_int_space Hd).
  apply is_empty_false in Hne as (c & s' & ->).
  pose proof Hd as [Hc _]%andb_prop.
  rewrite (digit_is_no_sign c s' Hc). unfold Str.int_unsigned.
  rewrite (count_all _ _ Hd).
  destruct (Z.ltb_spec Str.int_max_str_digits (Z.of_nat (String.length (String c s'))));
    [lia|].
  exact (int_digits_all 0 false _ Hd).
Qed.


Lemma after_tag_tag s :
  VOICE_CMD_PATTERN.after_tag VOICE_CMD_PATTERN.tag (VOICE_CMD_PATTERN.tag +:+ s) = Some s.
Proof. reflexivity. Qed.

Lemma span_digits_head c s :
  Char.isdigit c = true ->
  exists d rest, Str.span_digits (String c s) = (String c d, rest).
Proof.
  intros Hc. simpl. rewrite Hc. destruct (Str.span_digits s) as [d rest]. eauto.
Qed.

(** The test of [parse_input_file] on a stripped chunk, [match] on
    ["/voice=" + part], holds exactly when the chunk begins with a digit:
    the pattern is anchored at the front only. *)
Lemma rebuilt_directive_matches part :
  is_Some (VOICE_CMD_PATTERN.match_ (VOICE_CMD_PATTERN.tag +:+ part)) <->
  exists c s, part = String c s /\ Char.isdigit c = true.
Proof.
  unfold VOICE_CMD_PATTERN.match_. rewrite after_tag_tag. split.
  - destruct part as [|c s]; simpl.
    + intros [x Hx]. discriminate Hx.
    + destruct (Char.isdigit c) eqn:Hc; [eauto|].
      intros [x Hx]. discriminate Hx.
  - intros (c & s & -> & Hc).
    destruct (span_digits_head c s Hc) as (d & rest & ->). eauto.
Qed.

(** ** DirectiveParser *)

(** One turn of the [while] loop, by the three kinds of chunk. *)
Lemma parse_loop_blank raw rest v segments :
  Str.is_empty (Str.strip raw) = true ->
  parse_loop (raw :: rest) v segments = parse_loop rest v segments.
Proof. intros H. simpl. now rewrite H. Qed.

Lemma parse_loop_text raw rest v segments :
  Str.is_empty (Str.strip raw) = false ->
  match Str.strip raw with
  | String c _ => Char.isdigit c = false
  | EmptyString => True
  end ->
  parse_loop (raw :: rest) v segments =
  parse_loop rest v (segments ++ [{| text := Str.strip raw; voice_index := v |}]).
Proof.
  intros Hne Hc. simpl. rewrite Hne.
  destruct (VOICE_CMD_PATTERN.match_ _) as [m|] eqn:Hm; [|reflexivity].
  assert (is_Some (VOICE_CMD_PATTERN.match_ (VOICE_CMD_PATTERN.tag +:+ Str.strip raw)))
    as (c & s & Hs & Hd)%rebuilt_directive_matches by eauto.
  rewrite Hs in Hc. congruence.
Qed.

Lemma parse_loop_digit_led raw rest v segments :
  (exists c s, Str.strip raw = String c s /\ Char.isdigit c = true) ->
  parse_loop (raw :: rest) v segments =
  parse_loop rest (default v (Str.int (Str.strip raw))) segments.
Proof.
  intros H. pose proof H as (c & s & Hs & _).
  apply rebuilt_directive_matches in H as [m Hm].
  simpl. rewrite Hs at 1. simpl Str.is_empty. cbv iota.
  rewrite Hm. now destruct (Str.int (Str.strip raw)).
Qed.

(** C2. Parsing "Hello. /voice=1 World. /voice=0 Done." with default
    voice 0 gives the three segments ("Hello.", 0), ("World.", 1) and
    ("Done.", 0), in that order. *)
Theorem parse_hello_world_done :
  parse_content "Hello. /voice=1 World. /voice=0 Done." 0 =
  [ {| text := "Hello."; voice_index := 0 |};
    {| text := "World."; voice_index := 1 |};
    {| text := "Done."; voice_index := 0 |} ].
Proof. vm_compute. reflexivity. Qed.

(** What the loop does with a chunk of digits, by their number. *)
Lemma parse_loop_short_digits raw rest v segments :
  Str.is_empty (Str.strip raw) = false ->
  Str.all Char.isdigit (Str.strip raw) = true ->
  Z.of_nat (String.length (Str.strip raw)) <= Str.int_max_str_digits ->
  parse_loop (raw :: rest) v segments =
  parse_loop rest (Str.decimal (Str.strip raw)) segments.
Proof.
  intros Hne Hd Hlen. rewrite parse_loop_digit_led.
  - now rewrite (int_of_digits _ Hne Hd Hlen).
  - apply is_empty_false in Hne as (c & s & Hs). exists c, s.
    split; [exact Hs|]. rewrite Hs in Hd. now apply andb_prop in Hd as [Hc _].
Qed.





(** C1, at a text chunk that begins with a digit.  The document
    "3 apples" holds no directive: [split] leaves it as one chunk, not
    empty, for which the specification describes one segment.  The
    loop takes the chunk for a voice id (the pattern is matched at the
    front of "/voice=3 apples"), [int] refuses it, and the branch the
    source marks "Should not happen" skips it: no segment comes out.
    In the second document the text "2 cats sat." is lost the same
    way. *)
Theorem digit_led_text_chunk_is_dropped :
  VOICE_CMD_PATTERN.split (normalize "3 apples") = ["3 apples"] /\
  described_segments 0 (VOICE_CMD_PATTERN.split (normalize "3 apples"))
  = [ {| text := "3 apples"; voice_index := 0 |} ] /\
  Str.int "3 apples" = None /\
  parse_content "3 apples" 0 = [] /\
  parse_content "Chapter /voice=1 2 cats sat. /voice=0 The end." 0 =
  [ {| text := "Chapter"; voice_index := 0 |};
    {| text := "The end."; voice_index := 0 |} ].
Proof. vm_compute. repeat split; reflexivity. Qed.

(** *** The split never runs out of fuel *)

Lemma after_tag_length pat s t :
  VOICE_CMD_PATTERN.after_tag pat s = Some t ->
  String.length s = (String.length pat + String.length t)%nat.
Proof.
  revert s. induction pat as [|p pat IH]; intros s; simpl.
  - now intros [= ->].
  - destruct s as [|c s]; [discriminate|].
    destruct (Char.eqb_nocase c p); [|discriminate].
    intros H%IH. simpl. now rewrite H.
Qed.

Lemma span_digits_spec s :
  Str.all Char.isdigit (fst (Str.span_digits s)) = true /\
  String.length s
  = (String.length (fst (Str.span_digits s)) + String.length (snd (Str.span_digits s)))%nat.
Proof.
  induction s as [|c s [IHd IHl]]; simpl; [auto|].
  destruct (Char.isdigit c) eqn:Hc; [|auto].
  destruct (Str.span_digits s) as [d rest]. simpl in *.
  rewrite Hc, IHd, IHl. auto.
Qed.

(** A match captures digits, at least one, and leaves less than it
    was given. *)
Lemma match_spec s d rest :
  VOICE_CMD_PATTERN.match_ s = Some (d, rest) ->
  Str.is_empty d = false /\ Str.all Char.isdigit d = true /\
  (String.length rest < String.length s)%nat.
Proof.
  unfold VOICE_CMD_PATTERN.match_.
  destruct (VOICE_CMD_PATTERN.after_tag _ s) as [t|] eqn:Ht; [|discriminate].
  apply after_tag_length in Ht.
  pose proof (span_digits_spec t) as [Hd Hl].
  destruct (Str.span_digits t) as [[|c d'] rest']; [discriminate|].
  intros [= <- <-]. simpl in *. repeat split; [exact Hd|lia].
Qed.

Lemma split_scan_fuel fuel :
  forall fuel' chunk s,
  (String.length s < fuel)%nat -> (String.length s < fuel')%nat ->
  VOICE_CMD_PATTERN.split_scan fuel chunk s = VOICE_CMD_PATTERN.split_scan fuel' chunk s.
Proof.
  induction fuel as [|fuel IH]; intros [|fuel'] chunk s H1 H2; try lia. simpl.
  destruct (VOICE_CMD_PATTERN.match_ s) as [[d rest]|] eqn:Hm.
  - apply match_spec in Hm as (_ & _ & Hlt). do 2 f_equal. apply IH; lia.
  - destruct s as [|c s]; [reflexivity|]. simpl in H1, H2. apply IH; lia.
Qed.

(** More fuel than [split] takes changes nothing. *)
Lemma split_fuel_enough s fuel :
  (String.length s < fuel)%nat ->
  VOICE_CMD_PATTERN.split_scan fuel EmptyString s = VOICE_CMD_PATTERN.split s.
Proof. intros H. apply split_scan_fuel; [exact H|lia]. Qed.

Lemma split_scan_alternates fuel :
  forall chunk s, alternates (VOICE_CMD_PATTERN.split_scan fuel chunk s).
Proof.
  induction fuel as [|fuel IH]; intros chunk s; simpl; [constructor|].
  destruct (VOICE_CMD_PATTERN.match_ s) as [[d rest]|] eqn:Hm.
  - apply match_spec in Hm as (Hne & Hd & _). now constructor.
  - destruct s as [|c s]; [constructor|apply IH].
Qed.

Lemma split_alternates s : alternates (VOICE_CMD_PATTERN.split s).
Proof. apply split_scan_alternates. Qed.

(** *** What the loop does where no text begins with a digit *)

Lemma parse_loop_app parts :
  forall v segments, parse_loop parts v segments = segments ++ parse_loop parts v [].
Proof.
  induction parts as [|raw rest IH]; intros v segments; simpl.
  - now rewrite app_nil_r.
  - destruct (Str.is_empty (Str.strip raw)); [apply IH|].
    destruct (VOICE_CMD_PATTERN.match_ _).
    + destruct (Str.int (Str.strip raw)); apply IH.
    + rewrite IH. rewrite (IH v [_]). now rewrite <- app_assoc.
Qed.

Lemma parse_loop_digits digits rest v segments :
  Str.is_empty digits = false -> Str.all Char.isdigit digits = true ->
  within_int_limit digits ->
  parse_loop (digits :: rest) v segments = parse_loop rest (Str.decimal digits) segments.
Proof.
  intros Hne Hd Hlen. rewrite <- (strip_digits _ Hd) at 2.
  apply parse_loop_short_digits; rewrite (strip_digits _ Hd); assumption.
Qed.

Lemma parse_loop_described parts :
  alternates parts ->
  forall v, Forall not_digit_led (text_chunks parts) ->
  Forall within_int_limit (digit_groups parts) ->
  parse_loop parts v [] = described_segments v parts.
Proof.
  induction 1 as [chunk|chunk digits rest Hne Hd Hrest IH]; intros v Htext Hlimit.
  - apply Forall_cons in Htext as [Hchunk _]. simpl described_segments.
    rewrite app_nil_r.
    destruct (Str.is_empty (Str.strip chunk)) eqn:Hblank.
    + now rewrite parse_loop_blank.
    + now rewrite parse_loop_text.
  - simpl text_chunks in Htext. apply Forall_cons in Htext as [Hchunk Htext].
    simpl digit_groups in Hlimit. apply Forall_cons in Hlimit as [Hlen Hlimit].
    simpl described_segments.
    destruct (Str.is_empty (Str.strip chunk)) eqn:Hblank.
    + rewrite parse_loop_blank by exact Hblank.
      rewrite parse_loop_digits by assumption. now apply IH.
    + rewrite parse_loop_text by assumption.
      rewrite parse_loop_digits by assumption.
      rewrite parse_loop_app. f_equal. now apply IH.
Qed.

Lemma described_segments_length parts :
  alternates parts ->
  forall v,
  length (described_segments v parts)
  = length (filter (fun chunk => Str.is_empty (Str.strip chunk) = false) (text_chunks parts)).
Proof.
  induction 1 as [chunk|chunk digits rest Hne Hd Hrest IH]; intros v;
    simpl described_segments; simpl text_chunks; rewrite filter_cons, length_app.
  - now destruct (Str.is_empty (Str.strip chunk)).
  - rewrite IH. now destruct (Str.is_empty (Str.strip chunk)).
Qed.

(** X9. What C1 says does hold for every document in which no chunk of
    text begins, once trimmed, with a digit and no directive has more
    than 4300 digits: the segments are the ones the specification
    describes, one for each chunk that is not empty, under the cursor
    of that point. *)
Lemma parse_content_described content default_voice_index :
  Forall not_digit_led (text_chunks (VOICE_CMD_PATTERN.split (normalize content))) ->
  Forall within_int_limit (digit_groups (VOICE_CMD_PATTERN.split (normalize content))) ->
  parse_content content default_voice_index
  = described_segments default_voice_index (VOICE_CMD_PATTERN.split (normalize content)) /\
  length (parse_content content default_voice_index)
  = length (filter (fun chunk => Str.is_empty (Str.strip chunk) = false)
              (text_chunks (VOICE_CMD_PATTERN.split (normalize content)))).
Proof.
  intros Htext Hlimit. unfold parse_content.
  rewrite (parse_loop_described _ (split_alternates _) _ Htext Hlimit).
  split; [reflexivity|]. apply described_segments_length, split_alternates.
Qed.

(** ** VoiceCatalog *)

Lemma dense_snoc voices v :
  dense voices -> Voice.index v = length voices -> dense (voices ++ [v]).
Proof.
  intros Hd Hv k u [Hu|[Hk Hu]]%lookup_app_Some; [now apply Hd|].
  destruct (k - length voices)%nat as [|j] eqn:Hj; simpl in Hu; [|discriminate Hu].
  injection Hu as <-. lia.
Qed.

Lemma dense_fold {B : Type} (mk : nat -> B -> Voice.t) (listed : list B) voices :
  (forall n b, Voice.index (mk n b) = n) ->
  dense voices ->
  dense (fold_left (fun acc b => acc ++ [mk (length acc) b]) listed voices).
Proof.
  intros Hmk. revert voices.
  induction listed as [|b listed IH]; intros voices Hd; simpl; [exact Hd|].
  apply IH. apply dense_snoc; [exact Hd|apply Hmk].
Qed.

(** What [__init__] leaves: a catalog that is not empty and whose
    indices are dense. *)
Lemma init_catalog local completed online self :
  UnifiedTTSEngine_init local completed online = Some self ->
  unified_voices self <> [] /\ dense (unified_voices self).
Proof.
  unfold UnifiedTTSEngine_init, map_pyttsx3_voices, map_edge_tts_voices.
  match goal with |- context [fold_left ?f online ?l] => set (voices := fold_left f online l) end.
  assert (dense voices) as Hd.
  { subst voices.
    apply (dense_fold (fun n v => Voice.mk n edge_tts (Name v) (ShortName v) (Locale v)));
      [reflexivity|].
    apply (dense_fold (fun n v => Voice.mk n pyttsx3 (sapi_name v) (sapi_id v)
                                    (hd "N/A" (sapi_languages v)))); [reflexivity|].
    intros k v Hk. discriminate Hk. }
  destruct voices as [|v vs]; [discriminate|].
  intros [= <-]. simpl. split; [discriminate|exact Hd].
Qed.

Lemma py_getitem_front {A : Type} (l : list A) (i : Z) :
  0 <= i < Z.of_nat (length l) -> py_getitem l i = l !! Z.to_nat i.
Proof.
  intros [H0 Hn]. unfold py_getitem.
  apply Z.leb_le in H0 as ->. now apply Z.ltb_lt in Hn as ->.
Qed.

Lemma py_getitem_back {A : Type} (l : list A) (i : Z) :
  - Z.of_nat (length l) <= i < 0 ->
  py_getitem l i = l !! Z.to_nat (Z.of_nat (length l) + i).
Proof.
  intros [Hn H0]. unfold py_getitem.
  apply Z.leb_gt in H0 as ->. now apply Z.leb_le in Hn as ->.
Qed.

Lemma py_getitem_none {A : Type} (l : list A) (i : Z) :
  py_getitem l i = None <-> i < - Z.of_nat (length l) \/ Z.of_nat (length l) <= i.
Proof.
  unfold py_getitem.
  destruct (Z.leb_spec 0 i) as [H0|H0].
  - destruct (Z.ltb_spec i (Z.of_nat (length l))) as [Hn|Hn].
    + rewrite lookup_ge_None. lia.
    + split; [lia|reflexivity].
  - destruct (Z.leb_spec (- Z.of_nat (length l)) i) as [Hn|Hn].
    + rewrite lookup_ge_None. lia.
    + split; [lia|reflexivity].
Qed.

(** C6, as stated, at index -1: the catalog built from one local and
    one online voice has no voice of index -1, and the lookup answers
    with the last voice. *)
Lemma get_voice_by_index_minus_one :
  UnifiedTTSEngine_init
    [ {| sapi_name := "David"; sapi_id := "TTS_MS_EN-US_DAVID";
         sapi_languages := [] |} ] true
    [ {| Name := "AriaNeural"; ShortName := "en-US-AriaNeural";
         Locale := "en-US" |} ]
  = Some two_voices /\
  Forall (fun v => Z.of_nat (Voice.index v) <> -1) (unified_voices two_voices) /\
  get_voice_by_index two_voices (-1) = Some aria.
Proof.
  split; [reflexivity|]. split; [|reflexivity].
  repeat constructor; simpl; lia.
Qed.

(** C6, amended.  The lookup is absent exactly when the index is at
    least the size of the catalog or below minus the size.  From 0 up
    to the size it is the voice at that position; from minus the size
    up to -1 it is the voice that far from the end. *)
Theorem get_voice_by_index_range (self : UnifiedTTSEngine) (index : Z) :
  let n := Z.of_nat (length (unified_voices self)) in
  (get_voice_by_index self index = None <-> index < - n \/ n <= index) /\
  (0 <= index < n ->
   get_voice_by_index self index = unified_voices self !! Z.to_nat index) /\
  (- n <= index < 0 ->
   get_voice_by_index self index = unified_voices self !! Z.to_nat (n + index)).
Proof.
  unfold get_voice_by_index. split; [apply py_getitem_none|].
  split; [apply py_getitem_front|apply py_getitem_back].
Qed.

(** With a catalog as [__init__] builds it, a voice found at an index
    from 0 up carries that index. *)
Lemma get_voice_by_index_dense local completed online self (index : Z) v :
  UnifiedTTSEngine_init local completed online = Some self ->
  0 <= index -> get_voice_by_index self index = Some v ->
  Z.of_nat (Voice.index v) = index.
Proof.
  intros [_ Hd]%init_catalog H0 Hv. unfold get_voice_by_index in Hv.
  destruct (Z.lt_ge_cases index (Z.of_nat (length (unified_voices self)))) as [Hn|Hn].
  - rewrite py_getitem_front in Hv by lia. apply Hd in Hv. lia.
  - assert (py_getitem (unified_voices self) index = None) as Hnone
      by (apply py_getitem_none; lia).
    congruence.
Qed.

(** ** The export target *)

Lemma rfind_lower_bound c s : -1 <= Path.rfind c s.
Proof.
  induction s as [|a s IH]; simpl; [lia|].
  destruct (Z.leb_spec 0 (Path.rfind c s)); [lia|].
  destruct (Ascii.eqb a c); lia.
Qed.

Lemma rfind_absent c s :
  Path.rfind c s = -1 -> Str.all (fun a => negb (Ascii.eqb a c)) s = true.
Proof.
  induction s as [|a s IH]; simpl; [reflexivity|].
  destruct (Z.leb_spec 0 (Path.rfind c s)) as [H|H].
  - lia.
  - pose proof (rfind_lower_bound c s).
    destruct (Ascii.eqb a c); [discriminate|].
    intros _. simpl. apply IH. lia.
Qed.

(** From the last [c] on, the string is [c] and a rest without [c]. *)
Lemma rfind_drop c s :
  0 <= Path.rfind c s ->
  exists e, Path.drop (Z.to_nat (Path.rfind c s)) s = String c e /\
            Str.all (fun a => negb (Ascii.eqb a c)) e = true.
Proof.
  induction s as [|a s IH]; simpl; [lia|].
  destruct (Z.leb_spec 0 (Path.rfind c s)) as [H|H].
  - intros _. destruct (IH H) as (e & He & Hall). exists e.
    replace (Z.to_nat (Path.rfind c s + 1)) with (S (Z.to_nat (Path.rfind c s))) by lia.
    simpl. now split.
  - destruct (Ascii.eqb_spec a c) as [->|Hac]; [|lia].
    intros _. exists s. split; [reflexivity|].
    apply rfind_absent. pose proof (rfind_lower_bound c s). lia.
Qed.

(** The extension [splitext] returns is empty, or a dot and a rest
    without dots. *)
Lemma splitext_extension E p :
  snd (Path.splitext E p) = EmptyString \/
  exists e, snd (Path.splitext E p) = String "." e /\
            Str.all (fun a => negb (Ascii.eqb a ".")) e = true.
Proof.
  unfold Path.splitext.
  set (sepIndex := match os_altsep E with Some _ => _ | None => _ end).
  assert (-1 <= sepIndex) as Hsep.
  { subst sepIndex. pose proof (rfind_lower_bound (os_sep E) p).
    destruct (os_altsep E); lia. }
  destruct (Z.ltb_spec sepIndex (Path.rfind "." p)) as [Hlt|Hge]; [|now left].
  destruct (Path.name_starts _ _ p); [|now left].
  right. simpl. apply rfind_drop. lia.
Qed.

Lemma strip_by_skip p c s : p c = true -> Str.strip_by p (String c s) = Str.strip_by p s.
Proof. intros H. unfold Str.strip_by. simpl. now rewrite H. Qed.

Lemma rstrip_by_keep p s :
  Str.all (fun a => negb (p a)) s = true -> Str.rstrip_by p s = s.
Proof.
  induction s as [|c s IH]; simpl; [reflexivity|].
  intros [Hc Hs]%andb_prop. rewrite (IH Hs).
  destruct s; [|reflexivity]. now apply negb_true_iff in Hc as ->.
Qed.

Lemma strip_by_keep p s :
  Str.all (fun a => negb (p a)) s = true -> Str.strip_by p s = s.
Proof.
  intros H. unfold Str.strip_by.
  destruct s as [|c s]; [reflexivity|].
  pose proof H as [Hc _]%andb_prop. simpl Str.lstrip_by.
  apply negb_true_iff in Hc as ->. now apply rstrip_by_keep.
Qed.

Lemma lower_keeps_dots c :
  Ascii.eqb (Char.lower c) "." = Ascii.eqb c ".".
Proof. destruct c as [[] [] [] [] [] [] [] []]; reflexivity. Qed.

Lemma lower_without_dots e :
  Str.all (fun a => negb (Ascii.eqb a ".")) e = true ->
  Str.all (fun a => negb (Ascii.eqb a ".")) (Str.lower e) = true.
Proof.
  induction e as [|c e IH]; simpl; [reflexivity|].
  intros [Hc He]%andb_prop. now rewrite lower_keeps_dots, Hc, IH.
Qed.

(** [ext.lower().strip('.')] for an extension as [splitext] gives it. *)
Lemma strip_dot_of_extension e :
  Str.all (fun a => negb (Ascii.eqb a ".")) e = true ->
  Str.strip_chars "." (Str.lower (String "." e)) = Str.lower e.
Proof.
  intros He. unfold Str.strip_chars. simpl Str.lower.
  rewrite strip_by_skip by reflexivity.
  apply strip_by_keep. apply lower_without_dots in He.
  revert He. generalize (Str.lower e). intros s.
  induction s as [|c s IH]; simpl; [reflexivity|].
  intros [Hc Hs]%andb_prop. rewrite orb_false_r, Hc. now apply IH.
Qed.

Lemma lower_is_empty e : Str.is_empty (Str.lower e) = Str.is_empty e.
Proof. now destruct e. Qed.

(** What [export_final] adds to the log: the announcement, one call of
    the exporter with the target, and the report. *)
Lemma export_final_log E combined_audio output_file w :
  log (export_final E combined_audio output_file w) =
  log w ++
  [ Printed (SayExporting output_file);
    Called (Export (fst (export_target E output_file))
              (snd (export_target E output_file)) combined_audio);
    Printed (if exportable E (fst (export_target E output_file))
                  (snd (export_target E output_file))
             then SaySuccess (fst (export_target E output_file))
             else FatalExport) ].
Proof.
  unfold export_final. destruct (export_target E output_file) as [path ext].
  simpl fst. simpl snd.
  destruct (exportable E path ext); [|destruct (failed_export_leaves E path ext)];
    simpl; now rewrite <- !app_assoc.
Qed.

(** C9. When the output path has no extension ([splitext] gives none,
    or the bare dot of a name that ends in one), ".wav" is appended
    and the format is "wav"; otherwise the path is kept and the format
    is the extension, lower-cased, without its dot.  Those are the path
    and the format of the one call of the exporter. *)
Theorem export_format_follows_extension (E : env) (combined_audio : AudioSegment)
    (output_file : string) (w : world) :
  let ext := snd (Path.splitext E output_file) in
  (ext = EmptyString \/ ext = "." ->
   export_target E output_file = (output_file +:+ ".wav", "wav")) /\
  (forall e, ext = String "." e -> e <> EmptyString ->
   export_target E output_file = (output_file, Str.lower e)) /\
  (ext = EmptyString \/ exists e, ext = String "." e) /\
  log (export_final E combined_audio output_file w) =
  log w ++
  [ Printed (SayExporting output_file);
    Called (Export (fst (export_target E output_file))
              (snd (export_target E output_file)) combined_audio);
    Printed (if exportable E (fst (export_target E output_file))
                  (snd (export_target E output_file))
             then SaySuccess (fst (export_target E output_file))
             else FatalExport) ].
Proof.
  intros ext. pose proof (splitext_extension E output_file) as Hext.
  fold ext in Hext. unfold export_target. fold ext.
  repeat split.
  - intros [->| ->]; reflexivity.
  - intros e He Hne. destruct Hext as [Hext|(e' & He' & Hdots)]; [congruence|].
    rewrite He' in He. injection He as ->. rewrite He'.
    rewrite (strip_dot_of_extension e Hdots), lower_is_empty.
    destruct e; [congruence|reflexivity].
  - destruct Hext as [Hext|(e & He & _)]; eauto.
  - apply export_final_log.
Qed.

(** Two small examples of the target. *)
Example export_target_examples :
  export_target fair_weather "out" = ("out.wav", "wav") /\
  export_target fair_weather "talk.MP3" = ("talk.MP3", "mp3") /\
  export_target fair_weather "notes.v2/out" = ("notes.v2/out.wav", "wav") /\
  export_target fair_weather "out." = ("out..wav", "wav").
Proof. repeat split; reflexivity. Qed.

(** ** The log and the files along the pipeline *)

Lemma adds_refl P w : adds P w w.
Proof. exists []. split; [now rewrite app_nil_r|constructor]. Qed.

Lemma adds_trans P w1 w2 w3 : adds P w1 w2 -> adds P w2 w3 -> adds P w1 w3.
Proof.
  intros (e1 & H1 & F1) (e2 & H2 & F2). exists (e1 ++ e2). split.
  - now rewrite H2, H1, app_assoc.
  - now apply Forall_app.
Qed.

Lemma adds_weaken (P Q : event -> Prop) w w' :
  (forall e, P e -> Q e) -> adds P w w' -> adds Q w w'.
Proof.
  intros HPQ (evs & H & F). exists evs. split; [exact H|].
  eapply Forall_impl; eauto.
Qed.

Lemma adds_record P w w1 e : adds P w w1 -> P e -> adds P w (record e w1).
Proof.
  intros H He. eapply adds_trans; [exact H|].
  exists [e]. split; [reflexivity|]. now constructor.
Qed.

Lemma adds_say P w w1 m : adds P w w1 -> P (Printed m) -> adds P w (say m w1).
Proof. apply adds_record. Qed.

Lemma adds_calling P w w1 c : adds P w w1 -> P (Called c) -> adds P w (calling c w1).
Proof. apply adds_record. Qed.

Lemma adds_write P w w1 path a : adds P w w1 -> adds P w (write_file path a w1).
Proof. intros H. exact H. Qed.

Lemma adds_delete P w w1 path : adds P w w1 -> adds P w (delete_file path w1).
Proof. intros H. exact H. Qed.

Lemma adds_elem P w w' e : adds P w w' -> e ∈ log w -> e ∈ log w'.
Proof. intros (evs & -> & _) He. apply elem_of_app. now left. Qed.

Lemma say_elem m w : Printed m ∈ log (say m w).
Proof. simpl. apply elem_of_app. right. apply list_elem_of_singleton. reflexivity. Qed.

Lemma calling_elem c w : Called c ∈ log (calling c w).
Proof. simpl. apply elem_of_app. right. apply list_elem_of_singleton. reflexivity. Qed.

Ltac adds_steps :=
  repeat first
    [ assumption
    | apply adds_refl
    | apply adds_say; [|first [reflexivity | exact I]]
    | apply adds_calling; [|first [reflexivity | exact I]]
    | apply adds_write
    | apply adds_delete ].

Lemma files_kept_refl w : files_kept w w.
Proof. intros q H. exact H. Qed.

Lemma files_kept_trans w1 w2 w3 :
  files_kept w1 w2 -> files_kept w2 w3 -> files_kept w1 w3.
Proof. intros H1 H2 q H. apply H2, H1, H. Qed.

Lemma files_kept_record e w : files_kept w (record e w).
Proof. intros q H. exact H. Qed.

Lemma files_kept_write path a w : files_kept w (write_file path a w).
Proof.
  intros q H. simpl. destruct (decide (path = q)) as [->|Hne].
  - rewrite lookup_insert_eq. eauto.
  - now rewrite lookup_insert_ne.
Qed.

Lemma path_exists_true path w : path_exists path w = true <-> is_Some (files w !! path).
Proof. unfold path_exists. apply bool_decide_eq_true. Qed.

(** ** SynthesisBackend *)

Lemma try_provider_spec E voice text path w r w' :
  try_provider E voice text path w = (r, w') ->
  adds synthesis_only w w' /\ files_kept w w' /\
  Called (Provider voice text path) ∈ log w' /\
  (r = None \/ r = Some path /\ is_Some (files w' !! path)).
Proof.
  unfold try_provider.
  set (w1 := calling (Provider voice text path) w).
  set (w2 := match written _ with Some a => write_file path a w1 | None => w1 end).
  assert (adds synthesis_only w w2 /\ files_kept w w2 /\
          Called (Provider voice text path) ∈ log w2) as (Ha & Hk & Hc).
  { subst w2. destruct (written _) as [a|].
    - split; [subst w1; adds_steps|]. split; [|apply calling_elem].
      eapply files_kept_trans; [apply files_kept_record|apply files_kept_write].
    - split; [subst w1; adds_steps|]. split; [apply files_kept_record|apply calling_elem]. }
  clearbody w2. clear w1.
  destruct (raised _).
  - intros [= <- <-]. split; [adds_steps|]. split; [exact Hk|].
    split; [|now left]. eapply (adds_elem (fun _ => True)); [|exact Hc]. adds_steps.
  - destruct (path_exists path w2) eqn:Hex; intros [= <- <-].
    + repeat split; try assumption. right. split; [reflexivity|].
      now apply path_exists_true.
    + repeat split; try assumption. now left.
Qed.

Lemma synthesize_segment_spec E self text voice_index base w r w' :
  synthesize_segment E self text voice_index base w = (r, w') ->
  adds synthesis_only w w' /\ files_kept w w' /\
  (r = None \/
   exists path, r = Some path /\ is_Some (files w' !! path) /\
                (path = base +:+ ".wav" \/ path = base +:+ ".mp3")).
Proof.
  unfold synthesize_segment.
  destruct (get_voice_by_index self voice_index) as [voice|].
  2:{ intros [= <- <-]. split; [adds_steps|]. split; [apply files_kept_record|now left]. }
  set (path := base +:+ ext_of (Voice.engine voice)).
  set (w2 := say (SayDebug _ _) (say (SaySynthesizing _ _ _ _) w)).
  assert (adds synthesis_only w w2) as Ha by (subst w2; adds_steps).
  assert (files_kept w w2) as Hk by (intros q Hq; exact Hq).
  assert (path = base +:+ ".wav" \/ path = base +:+ ".mp3") as Hpath
    by (subst path; destruct (Voice.engine voice); auto).
  clearbody w2 path.
  assert (forall r w', try_provider E voice text path w2 = (r, w') ->
          adds synthesis_only w w' /\ files_kept w w' /\
          (r = None \/
           exists p, r = Some p /\ is_Some (files w' !! p) /\
                     (p = base +:+ ".wav" \/ p = base +:+ ".mp3"))) as Htry.
  { intros r0 w0 (Ha' & Hk' & _ & Hr)%try_provider_spec.
    split; [eapply adds_trans; eauto|]. split; [eapply files_kept_trans; eauto|].
    destruct Hr as [->|[-> Hex]]; [now left|]. right. eauto. }
  destruct (Voice.engine voice); [|apply Htry].
  destruct (pyttsx3_available self); simpl; [apply Htry|].
  intros [= <- <-]. split; [adds_steps|]. split; [exact Hk|now left].
Qed.

(** Once the voice is found, the segment is announced, and the
    provider is called unless the voice is a local one and the local
    engine is not available. *)
Lemma synthesize_segment_found E self text voice_index base w voice r w' :
  get_voice_by_index self voice_index = Some voice ->
  synthesize_segment E self text voice_index base w = (r, w') ->
  let path := base +:+ ext_of (Voice.engine voice) in
  Printed (SaySynthesizing voice_index (Voice.engine voice) text path) ∈ log w' /\
  (Voice.engine voice = edge_tts \/ pyttsx3_available self = true ->
   Called (Provider voice text path) ∈ log w') /\
  (r = None \/ r = Some path).
Proof.
  intros Hv Hrun. cbv zeta. set (path := base +:+ ext_of (Voice.engine voice)).
  unfold synthesize_segment in Hrun. rewrite Hv in Hrun. cbv zeta in Hrun.
  fold path in Hrun.
  set (w1 := say (SaySynthesizing _ _ _ _) w) in Hrun.
  set (w2 := say (SayDebug _ _) w1) in Hrun.
  assert (Printed (SaySynthesizing voice_index (Voice.engine voice) text path) ∈ log w2)
    as Hsaid.
  { eapply (adds_elem (fun _ => True)); [|apply say_elem]. subst w2. adds_steps. }
  clearbody w2.
  assert (forall r w', try_provider E voice text path w2 = (r, w') ->
          Printed (SaySynthesizing voice_index (Voice.engine voice) text path) ∈ log w' /\
          Called (Provider voice text path) ∈ log w' /\
          (r = None \/ r = Some path)) as Htry.
  { intros r0 w0 (Ha & _ & Hc & Hr)%try_provider_spec.
    split; [eapply adds_elem; eauto|]. split; [exact Hc|].
    destruct Hr as [->|[-> _]]; auto. }
  destruct (Voice.engine voice) eqn:Hkind.
  - destruct (pyttsx3_available self) eqn:Hav; simpl in Hrun.
    + apply Htry in Hrun as (H1 & H2 & H3). auto.
    + injection Hrun as <- <-. split.
      * eapply (adds_elem (fun _ => True)); [|exact Hsaid]. adds_steps.
      * split; [intros [?|?]; discriminate|now left].
  - apply Htry in Hrun as (H1 & H2 & H3). auto.
Qed.

(** ** SegmentPipeline *)

Lemma synthesize_one_spec E engine default_voice_index i segment w vi r w' :
  synthesize_one E engine default_voice_index i segment w = (vi, r, w') ->
  adds synthesis_only w w' /\ files_kept w w' /\
  (r = None \/
   exists path, r = Some path /\ is_Some (files w' !! path) /\ temp_path_of E i path).
Proof.
  unfold synthesize_one.
  set (checked := if Z.of_nat (length (unified_voices engine)) <=? voice_index segment
                  then _ else _).
  assert (adds synthesis_only w (snd checked) /\ files_kept w (snd checked)) as [Ha Hk].
  { subst checked. destruct (_ <=? _); simpl.
    - split; [adds_steps|apply files_kept_record].
    - split; [adds_steps|apply files_kept_refl]. }
  destruct checked as [vi0 w0]. simpl in Ha, Hk.
  destruct (synthesize_segment _ _ _ _ _ _) as [r0 w1] eqn:Hrun.
  intros [= <- <- <-].
  apply synthesize_segment_spec in Hrun as (Ha' & Hk' & Hr).
  split; [eapply adds_trans; eauto|]. split; [eapply files_kept_trans; eauto|].
  exact Hr.
Qed.

(** The loop keeps the successes in the order of the segments: the
    files are the paths of the results that are not [None], and the
    counter is their number. *)
Lemma synthesis_loop_spec E engine default_voice_index segments :
  forall i temp_files successful w temp_files' successful' w',
  synthesis_loop E engine default_voice_index i segments temp_files successful w
  = (temp_files', successful', w') ->
  temp_files' =
    temp_files ++ omap id (synthesis_results E engine default_voice_index i segments w) /\
  successful' =
    (successful
     + length (omap id (synthesis_results E engine default_voice_index i segments w)))%nat /\
  adds synthesis_only w w' /\ files_kept w w'.
Proof.
  induction segments as [|segment rest IH]; intros i tf n w tf' n' w'; simpl.
  - intros [= <- <- <-]. rewrite app_nil_r, Nat.add_0_r.
    repeat split; [apply adds_refl|apply files_kept_refl].
  - destruct (synthesize_one _ _ _ _ _ _) as [[vi [path|]] w1] eqn:Hone;
      apply synthesize_one_spec in Hone as (Ha & Hk & _); intros Hloop;
      apply IH in Hloop as (-> & -> & Ha' & Hk'); simpl.
    + split; [now rewrite <- app_assoc|].
      split; [now rewrite Nat.add_succ_r|].
      split; [eapply adds_trans; eauto|eapply files_kept_trans; eauto].
    + split; [reflexivity|]. split; [reflexivity|]. split.
      * eapply adds_trans; [exact Ha|]. eapply adds_trans; [|exact Ha']. adds_steps.
      * eapply files_kept_trans; [exact Hk|]. eapply files_kept_trans; [|exact Hk'].
        apply files_kept_record.
Qed.

Lemma synthesis_results_length E engine default_voice_index segments :
  forall i w,
  length (synthesis_results E engine default_voice_index i segments w) = length segments.
Proof.
  induction segments as [|segment rest IH]; intros i w; simpl; [reflexivity|].
  destruct (synthesize_one _ _ _ _ _ _) as [[vi [path|]] w1]; simpl; now rewrite IH.
Qed.

(** Every success is a file that is there when the loop ends, under
    one of the two names of its segment. *)
Lemma synthesis_results_files E engine default_voice_index segments :
  forall i temp_files successful w temp_files' successful' w',
  synthesis_loop E engine default_voice_index i segments temp_files successful w
  = (temp_files', successful', w') ->
  forall k path,
  synthesis_results E engine default_voice_index i segments w !! k = Some (Some path) ->
  is_Some (files w' !! path) /\ temp_path_of E (i + k) path.
Proof.
  induction segments as [|segment rest IH]; intros i tf n w tf' n' w'; simpl.
  - intros _ k path Hk. discriminate Hk.
  - destruct (synthesize_one _ _ _ _ _ _) as [[vi [p|]] w1] eqn:Hone;
      apply synthesize_one_spec in Hone as (_ & _ & Hr); intros Hloop k path Hk.
    + destruct k as [|k]; simpl in Hk.
      * injection Hk as ->.
        destruct Hr as [Hr|(p' & [= <-] & Hex & Hname)]; [discriminate|].
        rewrite Nat.add_0_r. split; [|exact Hname].
        apply synthesis_loop_spec in Hloop as (_ & _ & _ & Hkept). now apply Hkept.
      * replace (i + S k)%nat with (S i + k)%nat by lia. eapply IH; eauto.
    + destruct k as [|k]; simpl in Hk; [discriminate|].
      replace (i + S k)%nat with (S i + k)%nat by lia. eapply IH; eauto.
Qed.

(** The turn of the segment at position [k]: it is run in some world
    the loop has reached, its result is the [k]-th result, what it
    logged is still in the log at the end, and a failure is reported. *)
Lemma synthesis_loop_turn E engine default_voice_index segments :
  forall i temp_files successful w temp_files' successful' w' k segment,
  synthesis_loop E engine default_voice_index i segments temp_files successful w
  = (temp_files', successful', w') ->
  segments !! k = Some segment ->
  exists w_k vi r w_k',
    synthesize_one E engine default_voice_index (i + k) segment w_k = (vi, r, w_k') /\
    adds (fun _ => True) w_k' w' /\
    synthesis_results E engine default_voice_index i segments w !! k = Some r /\
    (r = None -> Printed (ErrSegmentFailed (i + k)) ∈ log w').
Proof.
  induction segments as [|first rest IH];
    intros i tf n w tf' n' w' k segment Hloop Hk; [discriminate Hk|].
  simpl in Hloop. simpl synthesis_results. destruct k as [|k]; simpl in Hk.
  - injection Hk as ->. rewrite Nat.add_0_r.
    destruct (synthesize_one _ _ _ _ _ _) as [[vi [path|]] w1] eqn:Hone;
      apply synthesis_loop_spec in Hloop as (_ & _ & Ha & _);
      apply (adds_weaken _ (fun _ => True)) in Ha; try (intros; exact I).
    + exists w, vi, (Some path), w1. repeat split; try assumption. discriminate.
    + exists w, vi, None, w1. repeat split; try assumption.
      * eapply adds_trans; [|exact Ha]. adds_steps.
      * intros _. eapply adds_elem; [exact Ha|apply say_elem].
  - replace (i + S k)%nat with (S i + k)%nat by lia.
    destruct (synthesize_one _ _ _ _ _ _) as [[vi [path|]] w1];
      eapply IH in Hloop as (w_k & vi' & r & w_k' & H1 & H2 & H3 & H4); eauto;
      exists w_k, vi', r, w_k'; auto.
Qed.

Lemma synthesize_one_out_of_range E engine default_voice_index i segment w vi r w' :
  Z.of_nat (length (unified_voices engine)) <= voice_index segment ->
  synthesize_one E engine default_voice_index i segment w = (vi, r, w') ->
  vi = default_voice_index /\
  Printed (WarnOutOfRange (voice_index segment) default_voice_index) ∈ log w' /\
  synthesize_segment E engine (text segment) default_voice_index (base_temp_path E i)
    (say (WarnOutOfRange (voice_index segment) default_voice_index) w) = (r, w').
Proof.
  intros Hrange%Z.leb_le. unfold synthesize_one. rewrite Hrange.
  destruct (synthesize_segment _ _ _ _ _ _) as [r0 w1] eqn:Hrun.
  intros [= <- <- <-]. split; [reflexivity|]. split; [|reflexivity].
  apply synthesize_segment_spec in Hrun as (Ha & _).
  eapply adds_elem; [exact Ha|apply say_elem].
Qed.

Lemma first_voice_found self :
  unified_voices self <> [] -> exists voice, get_voice_by_index self 0 = Some voice.
Proof.
  unfold get_voice_by_index, py_getitem.
  destruct (unified_voices self) as [|v vs]; [congruence|]. intros _.
  exists v. simpl length. rewrite Nat2Z.inj_succ.
  destruct (Z.ltb_spec 0 (Z.succ (Z.of_nat (length vs)))); [reflexivity|lia].
Qed.

(** C5. A segment whose voice index is at least the size of the catalog
    is warned about and synthesized with the default voice 0: the
    voice is found, the segment is announced under it, the provider is
    called (unless voice 0 is a local voice and the local engine is not
    available), and the segment ends with a file among the temporary
    files or with the report that it failed. *)
Theorem out_of_range_voice_falls_back (E : env) (engine : UnifiedTTSEngine)
    (segments : list Segment) (w : world) (k : nat) (segment : Segment)
    (temp_files : list string) (successful_segments : nat) (w' : world) :
  unified_voices engine <> [] ->
  segments !! k = Some segment ->
  Z.of_nat (length (unified_voices engine)) <= voice_index segment ->
  synthesis_phase E engine 0 segments w = (temp_files, successful_segments, w') ->
  exists voice,
    get_voice_by_index engine 0 = Some voice /\
    Printed (WarnOutOfRange (voice_index segment) 0) ∈ log w' /\
    Printed (SaySynthesizing 0 (Voice.engine voice) (text segment)
               (base_temp_path E k +:+ ext_of (Voice.engine voice))) ∈ log w' /\
    (Voice.engine voice = edge_tts \/ pyttsx3_available engine = true ->
     Called (Provider voice (text segment)
               (base_temp_path E k +:+ ext_of (Voice.engine voice))) ∈ log w') /\
    (base_temp_path E k +:+ ext_of (Voice.engine voice) ∈ temp_files \/
     Printed (ErrSegmentFailed k) ∈ log w').
Proof.
  intros Hvoices Hk Hrange Hphase. unfold synthesis_phase in Hphase.
  destruct (first_voice_found engine Hvoices) as [voice Hvoice]. exists voice.
  split; [exact Hvoice|].
  pose proof Hphase as (w_k & vi & r & w_k' & Hone & Ha & Hr & Hfail)%(synthesis_loop_turn
    _ _ _ _ _ _ _ _ _ _ _ k segment); [|exact Hk].
  simpl in Hone, Hfail.
  apply synthesize_one_out_of_range in Hone as (_ & Hwarn & Hrun); [|exact Hrange].
  pose proof (synthesize_segment_found _ _ _ _ _ _ _ _ _ Hvoice Hrun)
    as (Hsaid & Hcalled & Hres).
  split; [eapply adds_elem; eauto|].
  split; [eapply adds_elem; eauto|].
  split; [intros Hav; eapply adds_elem; eauto|].
  destruct Hres as [->| ->]; [right; now apply Hfail|left].
  apply synthesis_loop_spec in Hphase as (-> & _). simpl.
  apply list_elem_of_omap. eexists. split; [|reflexivity].
  eapply list_elem_of_lookup_2. exact Hr.
Qed.

(** A catalog of two voices and a segment that asks for voice 7. *)
Lemma out_of_range_voice_falls_back_witness :
  let segment := {| text := "Hi"; voice_index := 7 |} in
  let run := synthesis_phase fair_weather two_voices 0 [segment] empty_world in
  unified_voices two_voices <> [] /\
  [segment] !! 0%nat = Some segment /\
  Z.of_nat (length (unified_voices two_voices)) <= voice_index segment /\
  exists voice,
    get_voice_by_index two_voices 0 = Some voice /\
    Printed (WarnOutOfRange 7 0) ∈ log (snd run) /\
    Printed (SaySynthesizing 0 (Voice.engine voice) "Hi"
               (base_temp_path fair_weather 0 +:+ ext_of (Voice.engine voice)))
      ∈ log (snd run) /\
    (Voice.engine voice = edge_tts \/ pyttsx3_available two_voices = true ->
     Called (Provider voice "Hi"
               (base_temp_path fair_weather 0 +:+ ext_of (Voice.engine voice)))
       ∈ log (snd run)) /\
    (base_temp_path fair_weather 0 +:+ ext_of (Voice.engine voice) ∈ fst (fst run) \/
     Printed (ErrSegmentFailed 0) ∈ log (snd run)).
Proof.
  intros segment run.
  split; [discriminate|]. split; [reflexivity|]. split; [simpl; lia|].
  apply (out_of_range_voice_falls_back fair_weather two_voices [segment] empty_world
           0 segment (fst (fst run)) (snd (fst run)) (snd run)).
  - discriminate.
  - reflexivity.
  - simpl. lia.
  - subst run. now destruct (synthesis_phase _ _ _ _ _) as [[tf n] w'].
Defined.

(** Step 2 writes nowhere but under the names of the temporary files. *)
Lemma synthesize_segment_writes E self text voice_index base w r w' q :
  synthesize_segment E self text voice_index base w = (r, w') ->
  q <> base +:+ ".wav" -> q <> base +:+ ".mp3" ->
  files w' !! q = files w !! q.
Proof.
  unfold synthesize_segment.
  destruct (get_voice_by_index self voice_index) as [voice|];
    [|now intros [= <- <-]].
  intros Hrun Hwav Hmp3.
  assert (q <> base +:+ ext_of (Voice.engine voice)) as Hq
    by (destruct (Voice.engine voice); assumption).
  assert (forall w2 r w', files w2 = files w ->
          try_provider E voice text (base +:+ ext_of (Voice.engine voice)) w2 = (r, w') ->
          files w' !! q = files w !! q) as Htry.
  { intros w2 r0 w0 Hsame. unfold try_provider.
    set (w3 := match written _ with Some a => write_file _ a _ | None => _ end).
    assert (files w3 !! q = files w !! q) as Hw3.
    { subst w3. destruct (written _); simpl; rewrite <- Hsame; [|reflexivity].
      now rewrite lookup_insert_ne. }
    clearbody w3. destruct (raised _); [now intros [= <- <-]|].
    destruct (path_exists _ w3); now intros [= <- <-]. }
  destruct (Voice.engine voice);
    [destruct (pyttsx3_available self); simpl in Hrun|];
    try (eapply Htry; [|exact Hrun]; reflexivity).
  now injection Hrun as <- <-.
Qed.

Lemma synthesis_loop_writes E engine default_voice_index segments :
  forall i temp_files successful w temp_files' successful' w' q,
  synthesis_loop E engine default_voice_index i segments temp_files successful w
  = (temp_files', successful', w') ->
  (forall j, ~ temp_path_of E j q) ->
  files w' !! q = files w !! q.
Proof.
  induction segments as [|segment rest IH]; intros i tf n w tf' n' w' q; simpl.
  - now intros [= <- <- <-].
  - intros Hloop Hq. unfold synthesize_one in Hloop.
    destruct (Z.of_nat _ <=? _);
      destruct (synthesize_segment _ _ _ _ _ _) as [[path|] w1] eqn:Hrun;
      apply IH with (q := q) in Hloop; try exact Hq;
      rewrite Hloop; simpl;
      apply (synthesize_segment_writes _ _ _ _ _ _ _ _ q) in Hrun;
      try exact Hrun;
      try (intros ->; apply (Hq i); now left);
      try (intros ->; apply (Hq i); now right).
Qed.

(** ** Assembler *)

(** The audio the loop of step 3 can load from [temp_files] in [w]. *)
Lemma concatenation_loop_spec E temp_files :
  forall combined_audio w,
  fst (concatenation_loop E temp_files combined_audio w) =
    combined_audio ++ concat (omap (fun temp_path => from_file E temp_path w) temp_files) /\
  files (snd (concatenation_loop E temp_files combined_audio w)) = files w /\
  adds (fun _ => True) w (snd (concatenation_loop E temp_files combined_audio w)).
Proof.
  induction temp_files as [|temp_path rest IH]; intros combined_audio w; simpl.
  - rewrite app_nil_r. repeat split. apply adds_refl.
  - change (from_file E temp_path (calling (FromFile temp_path) w))
      with (from_file E temp_path w).
    destruct (from_file E temp_path w) as [segment_audio|].
    + destruct (IH (combined_audio ++ segment_audio) (calling (FromFile temp_path) w))
        as (Haudio & Hfiles & Ha).
      rewrite Haudio, Hfiles. split; [|split; [reflexivity|]].
      * rewrite <- app_assoc. reflexivity.
      * eapply adds_trans; [|exact Ha]. adds_steps.
    + destruct (IH combined_audio (say (ErrLoading temp_path) (calling (FromFile temp_path) w)))
        as (Haudio & Hfiles & Ha).
      rewrite Haudio, Hfiles. split; [reflexivity|split; [reflexivity|]].
      eapply adds_trans; [|exact Ha]. adds_steps.
Qed.

Lemma loading_events_files E w w' temp_files :
  files w' = files w -> loading_events E w' temp_files = loading_events E w temp_files.
Proof. intros H. unfold loading_events, from_file. now rewrite H. Qed.

(** The log of step 3, event by event. *)
Lemma concatenation_loop_log E temp_files :
  forall combined_audio w,
  log (snd (concatenation_loop E temp_files combined_audio w))
  = log w ++ loading_events E w temp_files.
Proof.
  induction temp_files as [|temp_path rest IH]; intros combined_audio w.
  - simpl. now rewrite app_nil_r.
  - cbn [concatenation_loop loading_events flat_map].
    change (from_file E temp_path (calling (FromFile temp_path) w))
      with (from_file E temp_path w).
    fold (loading_events E w rest).
    destruct (from_file E temp_path w) as [segment_audio|]; rewrite IH.
    + rewrite (loading_events_files E w _ rest) by reflexivity.
      simpl. now rewrite <- app_assoc.
    + rewrite (loading_events_files E w _ rest) by reflexivity.
      simpl. now rewrite <- !app_assoc.
Qed.

Lemma loading_events_elem E w temp_files temp_path :
  temp_path ∈ temp_files ->
  Called (FromFile temp_path) ∈ loading_events E w temp_files /\
  (from_file E temp_path w = None ->
   Printed (ErrLoading temp_path) ∈ loading_events E w temp_files).
Proof.
  induction temp_files as [|p rest IH]; [intros H; now apply elem_of_nil in H|].
  cbn [loading_events flat_map]. fold (loading_events E w rest).
  intros [->|Hin]%elem_of_cons.
  - split; [now left|]. intros ->. right. now left.
  - destruct (IH Hin) as [Hcall Herr]. split.
    + right. apply elem_of_app. now right.
    + intros Hnone. right. apply elem_of_app. right. now apply Herr.
Qed.

Lemma export_final_files E combined_audio output_file w :
  files (export_final E combined_audio output_file w) =
  if exportable E (fst (export_target E output_file)) (snd (export_target E output_file))
  then <[fst (export_target E output_file) := combined_audio]> (files w)
  else
    match failed_export_leaves E (fst (export_target E output_file))
            (snd (export_target E output_file)) with
    | Some partial => <[fst (export_target E output_file) := partial]> (files w)
    | None => files w
    end.
Proof.
  unfold export_final. destruct (export_target E output_file) as [path ext].
  simpl fst. simpl snd. destruct (exportable E path ext); [reflexivity|].
  now destruct (failed_export_leaves E path ext).
Qed.

(** The export touches no path but its target, and takes no file away. *)
Lemma export_final_other E combined_audio output_file w q :
  q <> fst (export_target E output_file) ->
  files (export_final E combined_audio output_file w) !! q = files w !! q.
Proof.
  intros Hq. rewrite export_final_files.
  destruct (exportable E _ _); [now rewrite lookup_insert_ne|].
  destruct (failed_export_leaves E _ _); [now rewrite lookup_insert_ne|reflexivity].
Qed.

Lemma export_final_keeps E combined_audio output_file w q :
  is_Some (files w !! q) ->
  is_Some (files (export_final E combined_audio output_file w) !! q).
Proof.
  intros Hq. destruct (decide (q = fst (export_target E output_file))) as [->|Hne].
  - rewrite export_final_files.
    destruct (exportable E _ _); [rewrite lookup_insert_eq; eauto|].
    destruct (failed_export_leaves E _ _); [rewrite lookup_insert_eq; eauto|exact Hq].
  - now rewrite export_final_other.
Qed.

Lemma export_final_adds E combined_audio output_file w :
  adds (fun _ => True) w (export_final E combined_audio output_file w).
Proof.
  eexists. split; [apply export_final_log|]. repeat constructor.
Qed.

(** [os.remove] and the loop over the temporary files. *)
Lemma os_remove_spec E path w c w' :
  os_remove E path w = (c, w') ->
  adds removal w w' /\
  (forall q, q <> path -> files w' !! q = files w !! q) /\
  match c with
  | Returns => files w' !! path = None /\
               (forall q, files w !! q = None -> files w' !! q = None)
  | Raises => files w' = files w /\
              (files w !! path = None \/ removable E path = false)
  end.
Proof.
  unfold os_remove.
  destruct (path_exists path (calling (Remove path) w)) eqn:Hex; simpl.
  - destruct (removable E path) eqn:Hrm; simpl; intros [= <- <-].
    + split; [adds_steps|]. split.
      * intros q Hq. simpl. now rewrite lookup_delete_ne.
      * split; [simpl; apply lookup_delete_eq|].
        intros q Hq. simpl. destruct (decide (path = q)) as [->|Hne].
        -- apply lookup_delete_eq.
        -- now rewrite lookup_delete_ne.
    + split; [adds_steps|]. split; [reflexivity|]. split; [reflexivity|now right].
  - intros [= <- <-]. split; [adds_steps|]. split; [reflexivity|].
    split; [reflexivity|]. left.
    destruct (files w !! path) eqn:Hf; [|reflexivity].
    assert (path_exists path (calling (Remove path) w) = true) as Hyes
      by (apply path_exists_true; simpl; rewrite Hf; eauto).
    congruence.
Qed.

Lemma remove_loop_spec E temp_files :
  forall w c w',
  remove_loop E temp_files w = (c, w') ->
  adds removal w w' /\
  (forall q, q ∉ temp_files -> files w' !! q = files w !! q) /\
  (forall q, files w !! q = None -> files w' !! q = None) /\
  (c = Returns -> forall q, q ∈ temp_files -> files w' !! q = None).
Proof.
  induction temp_files as [|temp_path rest IH]; intros w c w'; simpl.
  - intros [= <- <-]. split; [apply adds_refl|]. repeat split; try tauto.
    intros _ q Hq. now apply elem_of_nil in Hq.
  - destruct (os_remove E temp_path w) as [[] w1] eqn:Hrm;
      apply os_remove_spec in Hrm as (Ha & Hother & Hc).
    + destruct Hc as [Hgone Hnone]. intros Hloop.
      apply IH in Hloop as (Ha' & Hother' & Hnone' & Hret).
      split; [eapply adds_trans; eauto|]. split; [|split].
      * intros q Hq. apply not_elem_of_cons in Hq as [Hq1 Hq2].
        now rewrite Hother', Hother.
      * intros q Hq. now apply Hnone', Hnone.
      * intros Hc q [->|Hq]%elem_of_cons; [now apply Hnone'|now apply Hret].
    + destruct Hc as [Hsame _]. intros [= <- <-].
      split; [exact Ha|]. rewrite Hsame. repeat split; try tauto. discriminate.
Qed.

(** One refusal is enough for the loop to be left by an exception. *)
Lemma remove_loop_raises E temp_files :
  forall w, (exists q, q ∈ temp_files /\ removable E q = false) ->
  fst (remove_loop E temp_files w) = Raises.
Proof.
  induction temp_files as [|temp_path rest IH]; intros w (q & Hq & Hno).
  - now apply elem_of_nil in Hq.
  - simpl. destruct (os_remove E temp_path w) as [[] w1] eqn:Hrm; [|reflexivity].
    apply elem_of_cons in Hq as [->|Hq]; [|apply IH; eauto].
    unfold os_remove in Hrm. rewrite Hno, andb_false_r in Hrm. discriminate Hrm.
Qed.

(** Files that are there, each once, and that may all be removed, are
    removed without an exception. *)
Lemma remove_loop_returns E temp_files :
  forall w, NoDup temp_files ->
  (forall q, q ∈ temp_files -> is_Some (files w !! q)) ->
  (forall q, q ∈ temp_files -> removable E q = true) ->
  fst (remove_loop E temp_files w) = Returns.
Proof.
  induction temp_files as [|temp_path rest IH]; intros w Hnd Hex Hrm; [reflexivity|].
  apply NoDup_cons in Hnd as [Hfresh Hnd]. simpl.
  destruct (os_remove E temp_path w) as [[] w1] eqn:Hone;
    apply os_remove_spec in Hone as (_ & Hother & Hc).
  - apply IH; [exact Hnd| |].
    + intros q Hq. rewrite Hother; [apply Hex; now right|]. intros ->. contradiction.
    + intros q Hq. apply Hrm. now right.
  - destruct Hc as [_ [Hnone|Hno]].
    + destruct (Hex temp_path) as [a Ha]; [now left|]. congruence.
    + rewrite Hrm in Hno; [discriminate|now left].
Qed.

(** Where the loop of step 5 stops: the files before the first one
    that cannot be removed are removed, one call each; the call for
    that one is the last, and nothing after it is touched. *)
Lemma remove_loop_stops E temp_files :
  forall w, NoDup temp_files ->
  (forall q, q ∈ temp_files -> is_Some (files w !! q)) ->
  exists removed kept,
    temp_files = removed ++ kept /\
    (forall q, q ∈ removed -> removable E q = true) /\
    match kept with
    | q :: _ =>
        removable E q = false /\
        fst (remove_loop E temp_files w) = Raises /\
        log (snd (remove_loop E temp_files w))
        = log w ++ map (fun p => Called (Remove p)) (removed ++ [q])
    | [] =>
        fst (remove_loop E temp_files w) = Returns /\
        log (snd (remove_loop E temp_files w))
        = log w ++ map (fun p => Called (Remove p)) removed
    end /\
    (forall p, p ∈ removed -> files (snd (remove_loop E temp_files w)) !! p = None) /\
    (forall p, p ∉ removed -> files (snd (remove_loop E temp_files w)) !! p = files w !! p).
Proof.
  induction temp_files as [|temp_path rest IH]; intros w Hnd Hex.
  - exists [], []. simpl. rewrite app_nil_r. repeat split; try reflexivity.
    + intros q Hq. now apply elem_of_nil in Hq.
    + intros p Hp. now apply elem_of_nil in Hp.
  - apply NoDup_cons in Hnd as [Hfresh Hnd].
    assert (path_exists temp_path (calling (Remove temp_path) w) = true) as Hthere.
    { apply path_exists_true. simpl. apply Hex. now left. }
    cbn [remove_loop]. unfold os_remove. rewrite Hthere.
    destruct (removable E temp_path) eqn:Hrm; cbn [andb].
    + set (w1 := delete_file temp_path (calling (Remove temp_path) w)).
      destruct (IH w1 Hnd) as (removed & kept & Hsplit & Hall & Hend & Hgone & Hother).
      { intros q Hq. subst w1. simpl. rewrite lookup_delete_ne.
        - apply Hex. now right.
        - intros ->. contradiction. }
      exists (temp_path :: removed), kept.
      split; [simpl; now rewrite Hsplit|].
      split; [intros q [->|Hq]%elem_of_cons; auto|].
      split; [|split].
      * destruct kept as [|q kept].
        -- destruct Hend as [Hret Hlog]. split; [exact Hret|].
           rewrite Hlog. subst w1. simpl. now rewrite <- app_assoc.
        -- destruct Hend as (Hno & Hraise & Hlog). split; [exact Hno|].
           split; [exact Hraise|].
           rewrite Hlog. subst w1. simpl. now rewrite <- app_assoc.
      * intros p [->|Hp]%elem_of_cons; [|now apply Hgone].
        destruct (decide (temp_path ∈ removed)) as [Hin|Hout]; [now apply Hgone|].
        rewrite (Hother _ Hout). subst w1. simpl. apply lookup_delete_eq.
      * intros p Hp. apply not_elem_of_cons in Hp as [Hne Hp].
        rewrite (Hother _ Hp). subst w1. simpl. now rewrite lookup_delete_ne.
    + exists [], (temp_path :: rest). simpl.
      split; [reflexivity|].
      split; [intros q Hq; now apply elem_of_nil in Hq|].
      split; [auto|].
      split; [intros p Hp; now apply elem_of_nil in Hp|reflexivity].
Qed.

Lemma cleanup_spec E temp_files w c w' :
  cleanup E temp_files w = (c, w') ->
  (forall q, q ∉ temp_files -> files w' !! q = files w !! q) /\
  match c with
  | Returns =>
      (forall q, q ∈ temp_files -> files w' !! q = None) /\
      exists w1, adds removal w w1 /\ w' = say SayCleanedUp w1
  | Raises => adds removal w w'
  end.
Proof.
  unfold cleanup.
  destruct (remove_loop E temp_files w) as [[] w1] eqn:Hloop;
    apply remove_loop_spec in Hloop as (Ha & Hother & _ & Hgone).
  - unfold os_rmdir. destruct (rmdir_allowed E); intros [= <- <-].
    + split; [exact Hother|]. split; [now apply Hgone|].
      exists (calling (Rmdir TEMP_DIR) w1). split; [adds_steps|reflexivity].
    + split; [exact Hother|]. adds_steps.
  - intros [= <- <-]. split; assumption.
Qed.

Lemma cleanup_adds E temp_files w :
  adds (fun _ => True) w (snd (cleanup E temp_files w)).
Proof.
  destruct (cleanup E temp_files w) as [c w'] eqn:Hc.
  apply cleanup_spec in Hc as (_ & Hc). simpl.
  destruct c as [|].
  - destruct Hc as (_ & w1 & Ha & ->).
    apply adds_say; [|exact I]. eapply adds_weaken; [|exact Ha]. auto.
  - eapply adds_weaken; [|exact Hc]. auto.
Qed.

Lemma cleanup_raises E temp_files w :
  (exists q, q ∈ temp_files /\ removable E q = false) \/ rmdir_allowed E = false ->
  fst (cleanup E temp_files w) = Raises.
Proof.
  intros H. unfold cleanup.
  destruct (remove_loop E temp_files w) as [[] w1] eqn:Hloop; [|reflexivity].
  destruct H as [H|H].
  - apply (remove_loop_raises E temp_files w) in H. rewrite Hloop in H. discriminate H.
  - unfold os_rmdir. now rewrite H.
Qed.

Lemma cleanup_returns E temp_files w :
  NoDup temp_files ->
  (forall q, q ∈ temp_files -> is_Some (files w !! q)) ->
  (forall q, q ∈ temp_files -> removable E q = true) ->
  rmdir_allowed E = true ->
  fst (cleanup E temp_files w) = Returns.
Proof.
  intros Hnd Hex Hrm Hdir. unfold cleanup.
  pose proof (remove_loop_returns E temp_files w Hnd Hex Hrm) as Hloop.
  destruct (remove_loop E temp_files w) as [[] w1]; [|discriminate Hloop].
  unfold os_rmdir. now rewrite Hdir.
Qed.

(** ** The names of the temporary files *)

Lemma append_length a b : String.length (a +:+ b) = (String.length a + String.length b)%nat.
Proof. induction a as [|c a IH]; simpl; [reflexivity|now rewrite IH]. Qed.

Lemma append_inj_l a x y : a +:+ x = a +:+ y -> x = y.
Proof. induction a as [|c a IH]; simpl; [auto|]. intros [= H]. auto. Qed.

Lemma append_inj_r x y e1 e2 :
  String.length e1 = String.length e2 -> x +:+ e1 = y +:+ e2 -> x = y /\ e1 = e2.
Proof.
  intros Hlen. revert y. induction x as [|c x IH]; intros [|d y]; simpl; intros H.
  - auto.
  - apply (f_equal String.length) in H. simpl in H. rewrite ?append_length in H.
    simpl in H. lia.
  - apply (f_equal String.length) in H. simpl in H. rewrite ?append_length in H.
    simpl in H. lia.
  - injection H as -> H. destruct (IH _ H) as [-> ->]. auto.
Qed.

Lemma of_nat_inj i j : Str.of_nat i = Str.of_nat j -> i = j.
Proof.
  assert (forall n, Nat.to_uint n <> Decimal.Nil) as Hnn.
  { intros n. rewrite <- (Unsigned.of_to n) at 1. rewrite Unsigned.to_of.
    apply DecimalFacts.unorm_nonnil. }
  unfold Str.of_nat. intros H.
  apply (f_equal NilZero.uint_of_string) in H.
  rewrite !NilZero.usu in H by apply Hnn.
  injection H as H. now apply Unsigned.to_uint_inj.
Qed.

(** Segments at different positions get different files. *)
Lemma temp_path_of_inj E i j path :
  temp_path_of E i path -> temp_path_of E j path -> i = j.
Proof.
  intros Hi Hj.
  assert (base_temp_path E i = base_temp_path E j) as H.
  { destruct Hi as [-> | ->], Hj as [Hj|Hj];
      now apply append_inj_r in Hj as [Hj _]. }
  unfold base_temp_path, Path.join in H.
  apply append_inj_l in H. apply (append_inj_l (String (os_sep E) EmptyString)) in H.
  apply append_inj_l in H. now apply of_nat_inj.
Qed.

Lemma omap_id_NoDup (T : nat -> string -> Prop) (l : list (option string)) :
  (forall a b p, T a p -> T b p -> a = b) ->
  forall i, (forall k p, l !! k = Some (Some p) -> T (i + k)%nat p) ->
  NoDup (omap id l).
Proof.
  intros Hinj. induction l as [|[p|] l IH]; intros i Hl; simpl.
  - constructor.
  - constructor.
    + intros (x & Hx & Hxp)%list_elem_of_omap. simpl in Hxp. subst x.
      apply list_elem_of_lookup_1 in Hx as [k Hk].
      pose proof (Hl 0%nat p eq_refl) as H0.
      pose proof (Hl (S k) p Hk) as H1.
      specialize (Hinj _ _ _ H0 H1). lia.
    + apply (IH (S i)). intros k q Hk.
      replace (S i + k)%nat with (i + S k)%nat by lia. now apply Hl.
  - apply (IH (S i)). intros k q Hk.
    replace (S i + k)%nat with (i + S k)%nat by lia. now apply Hl.
Qed.

(** When the loop ends, the temporary files it added are there, each
    once. *)
Lemma synthesis_loop_files E engine default_voice_index segments
    i temp_files successful w temp_files' successful' w' :
  synthesis_loop E engine default_voice_index i segments temp_files successful w
  = (temp_files', successful', w') ->
  NoDup (omap id (synthesis_results E engine default_voice_index i segments w)) /\
  forall q, q ∈ omap id (synthesis_results E engine default_voice_index i segments w) ->
            is_Some (files w' !! q).
Proof.
  intros Hloop. split.
  - apply (omap_id_NoDup (temp_path_of E) _ (temp_path_of_inj E) i).
    intros k p Hk. eapply synthesis_results_files; eauto.
  - intros q (x & Hx & Hxq)%list_elem_of_omap. simpl in Hxq. subst x.
    apply list_elem_of_lookup_1 in Hx as [k Hk].
    eapply synthesis_results_files; eauto.
Qed.

(** ** The whole job *)

Lemma synthesis_phase_spec E engine default_voice_index segments w temp_files n w1 :
  synthesis_phase E engine default_voice_index segments w = (temp_files, n, w1) ->
  temp_files = omap id (phase_results E engine default_voice_index segments w) /\
  n = length temp_files /\
  length (phase_results E engine default_voice_index segments w) = length segments /\
  adds synthesis_only w w1 /\
  NoDup temp_files /\
  (forall q, q ∈ temp_files -> is_Some (files w1 !! q)).
Proof.
  unfold synthesis_phase, phase_results. intros Hloop.
  pose proof (synthesis_loop_files _ _ _ _ _ _ _ _ _ _ _ Hloop) as [Hnd Hex].
  apply synthesis_loop_spec in Hloop as (-> & -> & Ha & _). simpl.
  repeat split; try assumption.
  - apply synthesis_results_length.
  - eapply adds_trans; [|exact Ha]. adds_steps.
Qed.

(** With no success the job stops after step 2. *)
Lemma process_segments_aborts E engine default_voice_index segments output_file w
    temp_files w1 :
  segments <> [] ->
  synthesis_phase E engine default_voice_index segments w = (temp_files, 0%nat, w1) ->
  process_segments E engine default_voice_index segments output_file w
  = (Returns, say ErrNoAudio w1).
Proof.
  intros Hne Hphase. unfold process_segments.
  destruct segments as [|s rest]; [congruence|]. now rewrite Hphase.
Qed.

(** With a success it goes through steps 3, 4 and 5. *)
Lemma process_segments_assembles E engine default_voice_index segments output_file w
    temp_files n w1 :
  synthesis_phase E engine default_voice_index segments w = (temp_files, n, w1) ->
  n <> 0%nat ->
  process_segments E engine default_voice_index segments output_file w =
  cleanup E temp_files
    (export_final E
       (fst (concatenation_loop E temp_files [] (say SayStartConcatenation w1)))
       output_file
       (snd (concatenation_loop E temp_files [] (say SayStartConcatenation w1)))).
Proof.
  intros Hphase Hn. unfold process_segments.
  destruct segments as [|s rest].
  - unfold synthesis_phase in Hphase. simpl in Hphase. congruence.
  - rewrite Hphase. apply Nat.eqb_neq in Hn as ->.
    now destruct (concatenation_loop _ _ _ _).
Qed.

(** A job without segments has nothing to do. *)
Lemma process_segments_nothing E engine default_voice_index output_file w :
  process_segments E engine default_voice_index [] output_file w
  = (Returns, say SayNoSegments w).
Proof. reflexivity. Qed.

Lemma omap_bind {A B : Type} (f : A -> option B) (l : list (option A)) :
  omap f (omap id l) = omap (fun r => r ≫= f) l.
Proof.
  induction l as [|[a|] l IH]; simpl; [reflexivity| |exact IH].
  change (list_omap A B f (list_omap (option A) A id l)) with (omap f (omap id l)).
  rewrite IH. reflexivity.
Qed.

(** C4. In a job with segments of which none is synthesized, the job
    returns after the report "Failed to generate any audio segments.
    Aborting concatenation.", and nothing it logged belongs to loading,
    exporting or cleaning up: the exporter is never called, and no
    file has changed but under the names of the temporary files.  With
    one success or more, the concatenation starts and the exporter is
    called with the target of the output path. *)
Theorem no_success_no_assembly (E : env) (engine : UnifiedTTSEngine)
    (default_voice_index : Z) (segments : list Segment) (output_file : string)
    (w : world) :
  segments <> [] ->
  (omap id (phase_results E engine default_voice_index segments w) = [] ->
   exists w1,
     process_segments E engine default_voice_index segments output_file w
     = (Returns, say ErrNoAudio w1) /\
     adds synthesis_only w (say ErrNoAudio w1) /\
     (forall q, (forall j, ~ temp_path_of E j q) -> files w1 !! q = files w !! q)) /\
  (omap id (phase_results E engine default_voice_index segments w) <> [] ->
   exists combined_audio,
     Printed SayStartConcatenation
       ∈ log (snd (process_segments E engine default_voice_index segments output_file w)) /\
     Called (Export (fst (export_target E output_file))
               (snd (export_target E output_file)) combined_audio)
       ∈ log (snd (process_segments E engine default_voice_index segments output_file w))).
Proof.
  intros Hne.
  destruct (synthesis_phase E engine default_voice_index segments w)
    as [[temp_files n] w1] eqn:Hphase.
  pose proof (synthesis_phase_spec _ _ _ _ _ _ _ _ Hphase) as (Htf & Hn & _ & Ha & _).
  split; intros Hres.
  - rewrite Hres in Htf. subst temp_files. simpl in Hn. subst n.
    exists w1. split; [now apply process_segments_aborts with (temp_files := [])|].
    split; [adds_steps|].
    intros q Hq. unfold synthesis_phase in Hphase.
    now apply (synthesis_loop_writes _ _ _ _ _ _ _ _ _ _ _ q) in Hphase.
  - assert (n <> 0%nat) as Hn0.
    { subst n. rewrite <- Htf in Hres. destruct temp_files; simpl; congruence. }
    rewrite (process_segments_assembles _ _ _ _ _ _ _ _ _ Hphase Hn0).
    set (loaded := concatenation_loop E temp_files [] (say SayStartConcatenation w1)).
    pose proof (concatenation_loop_spec E temp_files [] (say SayStartConcatenation w1))
      as (_ & _ & Hc). fold loaded in Hc.
    exists (fst loaded).
    pose proof (cleanup_adds E temp_files (export_final E (fst loaded) output_file (snd loaded)))
      as Hclean.
    split.
    + eapply adds_elem; [exact Hclean|].
      eapply adds_elem; [apply export_final_adds|].
      eapply adds_elem; [exact Hc|apply say_elem].
    + eapply adds_elem; [exact Hclean|].
      rewrite export_final_log. apply elem_of_app. right.
      apply elem_of_cons. right. apply elem_of_cons. now left.
Qed.

(** Two segments and providers that save nothing. *)
Lemma no_success_no_assembly_witness :
  let E := silent fair_weather in
  let segments := parse_content "Hello. /voice=1 Bye" 0 in
  segments <> [] /\
  omap id (phase_results E two_voices 0 segments empty_world) = [] /\
  (exists w1,
     process_segments E two_voices 0 segments "out.wav" empty_world
     = (Returns, say ErrNoAudio w1) /\
     adds synthesis_only empty_world (say ErrNoAudio w1) /\
     (forall q, (forall j, ~ temp_path_of E j q) ->
                files w1 !! q = files empty_world !! q)).
Proof.
  intros E segments.
  split; [vm_compute; discriminate|]. split; [reflexivity|].
  apply (no_success_no_assembly E two_voices 0 segments "out.wav" empty_world).
  - vm_compute. discriminate.
  - reflexivity.
Defined.

(** C3, as stated, where a file that was synthesized cannot be loaded.
    Both segments of "input.txt" succeed; the first provider saved the
    audio [6] and the second [3].  The codec cannot read the first
    file, the loop of step 3 reports it and goes on, and the artifact
    holds [3] alone, not [6; 3]. *)
Lemma unreadable_segment_is_left_out :
  let E := unreadable "tts_temp_segments/segment_0.wav" fair_weather in
  phase_results E two_voices 0 (parse_content "Hello. /voice=1 Bye" 0) empty_world
  = [Some "tts_temp_segments/segment_0.wav"; Some "tts_temp_segments/segment_1.mp3"] /\
  written (provider E david "Hello." "tts_temp_segments/segment_0.wav") = Some [6] /\
  written (provider E aria "Bye" "tts_temp_segments/segment_1.mp3") = Some [3] /\
  process_and_concatenate E two_voices "input.txt" "out.wav" empty_world
  = (Returns,
     snd (process_and_concatenate E two_voices "input.txt" "out.wav" empty_world)) /\
  Printed (ErrLoading "tts_temp_segments/segment_0.wav")
    ∈ log (snd (process_and_concatenate E two_voices "input.txt" "out.wav" empty_world)) /\
  files (snd (process_and_concatenate E two_voices "input.txt" "out.wav" empty_world))
    !! "out.wav" = Some [3].
Proof.
  intros E. split; [reflexivity|]. split; [reflexivity|]. split; [reflexivity|].
  split; [reflexivity|]. split; [|vm_compute; reflexivity].
  vm_compute. apply list_elem_of_In. simpl. tauto.
Qed.

(** C3, amended.  The audio handed to the exporter is the
    concatenation, in the order of the segments, of what could be
    loaded from the files of the segments that succeeded: a segment
    that failed has no file, and one whose file cannot be loaded is
    reported and left out.  After step 2 the log goes on with the start
    of the concatenation, then for each temporary file in turn the
    call that loads it, followed by "Error loading temporary file" when
    it cannot be loaded, then the export of that audio.  When the
    export succeeds to a path that is not one of the temporary files,
    that audio is what the artifact holds at the end. *)
Theorem artifact_is_ordered_concatenation (E : env) (engine : UnifiedTTSEngine)
    (default_voice_index : Z) (segments : list Segment) (output_file : string)
    (w : world) (temp_files : list string) (n : nat) (w1 : world) :
  synthesis_phase E engine default_voice_index segments w = (temp_files, n, w1) ->
  n <> 0%nat ->
  let results := phase_results E engine default_voice_index segments w in
  let audio :=
    concat (omap (fun r => r ≫= fun temp_path => from_file E temp_path w1) results) in
  let target := export_target E output_file in
  let w' := snd (process_segments E engine default_voice_index segments output_file w) in
  length results = length segments /\
  temp_files = omap id results /\
  Called (Export (fst target) (snd target) audio) ∈ log w' /\
  (exportable E (fst target) (snd target) = true ->
   fst target ∉ temp_files ->
   files w' !! fst target = Some audio) /\
  (exists rest,
     log w' =
     log w1 ++ Printed SayStartConcatenation :: loading_events E w1 temp_files
     ++ Printed (SayExporting output_file)
        :: Called (Export (fst target) (snd target) audio) :: rest) /\
  (forall temp_path, temp_path ∈ temp_files ->
     Called (FromFile temp_path) ∈ log w' /\
     (from_file E temp_path w1 = None -> Printed (ErrLoading temp_path) ∈ log w')).
Proof.
  intros Hphase Hn results audio target w'.
  pose proof (synthesis_phase_spec _ _ _ _ _ _ _ _ Hphase) as (Htf & _ & Hlen & _).
  fold results in Htf, Hlen.
  split; [exact Hlen|]. split; [exact Htf|].
  subst w'. rewrite (process_segments_assembles _ _ _ _ _ _ _ _ _ Hphase Hn).
  pose proof (concatenation_loop_spec E temp_files [] (say SayStartConcatenation w1))
    as (Haudio & Hfiles & _).
  pose proof (concatenation_loop_log E temp_files [] (say SayStartConcatenation w1))
    as Hload.
  rewrite (loading_events_files E w1 (say SayStartConcatenation w1)) in Hload
    by reflexivity.
  set (loaded := concatenation_loop E temp_files [] (say SayStartConcatenation w1)) in *.
  assert (fst loaded = audio) as Hsame.
  { rewrite Haudio. simpl. subst audio. rewrite Htf. now rewrite omap_bind. }
  rewrite Hsame.
  destruct (cleanup E temp_files (export_final E audio output_file (snd loaded)))
    as [c w2] eqn:Hclean.
  pose proof (cleanup_adds E temp_files (export_final E audio output_file (snd loaded)))
    as Ha. rewrite Hclean in Ha. simpl in Ha.
  apply cleanup_spec in Hclean as (Hother & _). simpl.
  assert (exists rest,
            log w2 =
            log w1 ++ Printed SayStartConcatenation :: loading_events E w1 temp_files
            ++ Printed (SayExporting output_file)
               :: Called (Export (fst target) (snd target) audio) :: rest) as [rest Hlog].
  { destruct Ha as (evs & Hevs & _). rewrite Hevs, export_final_log, Hload. simpl.
    eexists. rewrite <- !app_assoc. simpl. reflexivity. }
  split; [|split; [|split]].
  - rewrite Hlog. apply elem_of_app. right. right. apply elem_of_app. right.
    right. now left.
  - intros Hexp Hfresh. etransitivity; [apply Hother; exact Hfresh|].
    rewrite export_final_files. fold target. rewrite Hexp. apply lookup_insert_eq.
  - exists rest. exact Hlog.
  - intros temp_path Hin.
    destruct (loading_events_elem E w1 temp_files temp_path Hin) as [Hcall Herr].
    rewrite Hlog. split.
    + apply elem_of_app. right. right. apply elem_of_app. now left.
    + intros Hnone. apply elem_of_app. right. right. apply elem_of_app. left. auto.
Qed.

(** Four segments of which the second fails and the third is saved
    to a file the codec cannot read: the first and the fourth are
    heard, in that order, and the third is reported. *)
Lemma artifact_is_ordered_concatenation_witness :
  let E :=
    {| os_sep := "/"; os_altsep := None; read_text := fun _ => FileNotFound;
       provider := fun _ text _ =>
         {| written := if String.eqb text "two" then None
                       else Some [Z.of_nat (String.length text)];
            raised := false |};
       decodable := fun path => negb (String.eqb path "tts_temp_segments/segment_2.wav");
       exportable := fun _ _ => true;
       failed_export_leaves := fun _ _ => None;
       removable := fun _ => true; rmdir_allowed := true |} in
  let segments := parse_content "one /voice=1 two /voice=0 three /voice=0 four" 0 in
  let run := synthesis_phase E two_voices 0 segments empty_world in
  let w' := snd (process_segments E two_voices 0 segments "out.wav" empty_world) in
  snd (fst run) <> 0%nat /\
  phase_results E two_voices 0 segments empty_world
  = [Some "tts_temp_segments/segment_0.wav"; None;
     Some "tts_temp_segments/segment_2.wav"; Some "tts_temp_segments/segment_3.wav"] /\
  files (snd run) !! "tts_temp_segments/segment_0.wav" = Some [3] /\
  files (snd run) !! "tts_temp_segments/segment_2.wav" = Some [5] /\
  files (snd run) !! "tts_temp_segments/segment_3.wav" = Some [4] /\
  files w' !! "out.wav" = Some [3; 4] /\
  Printed (ErrLoading "tts_temp_segments/segment_2.wav") ∈ log w'.
Proof.
  intros E segments run w'.
  split; [vm_compute; discriminate|]. split; [reflexivity|].
  split; [reflexivity|]. split; [reflexivity|]. split; [reflexivity|].
  pose proof (artifact_is_ordered_concatenation E two_voices 0 segments "out.wav"
                empty_world (fst (fst run)) (snd (fst run)) (snd run)) as H.
  destruct H as (_ & _ & _ & Hfile & _ & Hreport).
  - subst run. now destruct (synthesis_phase _ _ _ _ _) as [[tf n] w1].
  - vm_compute. discriminate.
  - split.
    + apply Hfile; [reflexivity|].
      vm_compute. intros Hin. apply list_elem_of_In in Hin. simpl in Hin.
      destruct Hin as [Hin|[Hin|[Hin|[]]]]; discriminate Hin.
    + apply (Hreport "tts_temp_segments/segment_2.wav"); [|reflexivity].
      vm_compute. apply list_elem_of_In. simpl. tauto.
Defined.




Lemma process_and_concatenate_unfold E engine input_file output_file w segments w0 :
  parse_input_file E input_file 0 w = (segments, w0) ->
  process_and_concatenate E engine input_file output_file w =
  process_segments E engine 0 segments output_file w0.
Proof. intros H. unfold process_and_concatenate. now rewrite H. Qed.

(** C8, as stated, where a temporary file cannot be removed.  In fair
    weather the job returns.  With the file of the first segment
    locked, [os.remove] raises and nothing catches it before the menu:
    the job is left by the exception, "Temporary files cleaned up." is
    never printed, the second file is never removed, and the menu
    reports an unexpected error. *)
Lemma removal_failure_leaves_by_exception :
  let E := locked "tts_temp_segments/segment_0.wav" fair_weather in
  let job := process_and_concatenate E two_voices "input.txt" "out.wav" empty_world in
  fst (process_and_concatenate fair_weather two_voices "input.txt" "out.wav" empty_world)
  = Returns /\
  fst job = Raises /\
  (Printed SayCleanedUp ∉ log (snd job)) /\
  files (snd job) !! "tts_temp_segments/segment_1.mp3" = Some [3] /\
  last (log (menu_process E two_voices "input.txt" "out.wav" empty_world))
  = Some (Printed ErrUnexpected).
Proof.
  intros E job. split; [reflexivity|]. split; [reflexivity|].
  split; [|split; reflexivity].
  vm_compute. intros Hin. apply list_elem_of_In in Hin. simpl in Hin.
  repeat (destruct Hin as [Hin|Hin]; [discriminate Hin|]). exact Hin.
Qed.

(** C8, amended.  In a job that reaches step 5, a temporary file that
    cannot be removed, or a directory that cannot, makes
    [process_and_concatenate] end by an exception, after the exporter
    has been called.  The cleanup stops at the call that fails: the
    temporary files before the first one that cannot be removed are
    removed, one call each, and are gone; the failing call is the last
    event of the log, so the end of the cleanup is never announced;
    that file and the ones after it are still there, and no other
    file has changed since the export.  The menu, given two paths,
    reports an unexpected error and goes on. *)
Theorem cleanup_failure_propagates (E : env) (engine : UnifiedTTSEngine)
    (input_file output_file : string) (w : world)
    (segments : list Segment) (w0 : world)
    (temp_files : list string) (n : nat) (w1 : world) :
  parse_input_file E input_file 0 w = (segments, w0) ->
  synthesis_phase E engine 0 segments w0 = (temp_files, n, w1) ->
  n <> 0%nat ->
  (exists q, q ∈ temp_files /\ removable E q = false) \/ rmdir_allowed E = false ->
  exists combined_audio w2 w' removed kept,
    process_and_concatenate E engine input_file output_file w = (Raises, w') /\
    last (log w2) =
      Some (Printed (if exportable E (fst (export_target E output_file))
                          (snd (export_target E output_file))
                     then SaySuccess (fst (export_target E output_file))
                     else FatalExport)) /\
    Called (Export (fst (export_target E output_file))
              (snd (export_target E output_file)) combined_audio) ∈ log w2 /\
    adds removal w2 w' /\
    (Str.is_empty input_file = false -> Str.is_empty output_file = false ->
     menu_process E engine input_file output_file w = say ErrUnexpected w') /\
    temp_files = removed ++ kept /\
    (forall q, q ∈ removed -> removable E q = true) /\
    match kept with
    | q :: _ =>
        removable E q = false /\
        log w' = log w2 ++ map (fun p => Called (Remove p)) (removed ++ [q])
    | [] =>
        rmdir_allowed E = false /\
        log w' = log w2 ++ map (fun p => Called (Remove p)) temp_files
                 ++ [Called (Rmdir TEMP_DIR)]
    end /\
    (forall p, p ∈ removed -> files w' !! p = None) /\
    (forall p, p ∈ kept -> is_Some (files w' !! p)) /\
    (forall p, p ∉ removed -> files w' !! p = files w2 !! p).
Proof.
  intros Hparse Hphase Hn Hfail.
  pose proof (synthesis_phase_spec _ _ _ _ _ _ _ _ Hphase) as (_ & _ & _ & _ & Hnd & Hex).
  pose proof (concatenation_loop_spec E temp_files [] (say SayStartConcatenation w1))
    as (_ & Hfiles & _).
  assert (process_and_concatenate E engine input_file output_file w
          = cleanup E temp_files
              (export_final E
                 (fst (concatenation_loop E temp_files [] (say SayStartConcatenation w1)))
                 output_file
                 (snd (concatenation_loop E temp_files [] (say SayStartConcatenation w1)))))
    as Hjob.
  { rewrite (process_and_concatenate_unfold _ _ _ _ _ _ _ Hparse).
    exact (process_segments_assembles _ _ _ _ _ _ _ _ _ Hphase Hn). }
  set (loaded := concatenation_loop E temp_files [] (say SayStartConcatenation w1)) in *.
  set (w2 := export_final E (fst loaded) output_file (snd loaded)) in *.
  assert (forall q, q ∈ temp_files -> is_Some (files w2 !! q)) as Hex2.
  { intros q Hq. apply export_final_keeps. rewrite Hfiles. now apply Hex. }
  pose proof (cleanup_raises E temp_files w2 Hfail) as Hraise.
  destruct (remove_loop_stops E temp_files w2 Hnd Hex2)
    as (removed & kept & Hsplit & Hall & Hend & Hgone & Hother).
  assert (forall p, p ∈ kept -> p ∉ removed) as Hapart.
  { intros p Hk Hr. rewrite Hsplit in Hnd. apply NoDup_app in Hnd as (_ & Hno & _).
    exact (Hno p Hr Hk). }
  assert (forall p, p ∈ kept -> p ∈ temp_files) as Hsub.
  { intros p Hk. rewrite Hsplit. apply elem_of_app. now right. }
  pose proof (cleanup_spec E temp_files w2) as Hspec.
  unfold cleanup in Hjob, Hraise, Hspec.
  destruct (remove_loop E temp_files w2) as [c w3].
  simpl in Hend, Hgone, Hother.
  exists (fst loaded), w2.
  assert (last (log w2) =
          Some (Printed (if exportable E (fst (export_target E output_file))
                              (snd (export_target E output_file))
                         then SaySuccess (fst (export_target E output_file))
                         else FatalExport))) as Hlast
    by (subst w2; rewrite export_final_log, last_app; reflexivity).
  assert (Called (Export (fst (export_target E output_file))
                    (snd (export_target E output_file)) (fst loaded)) ∈ log w2) as Hcall.
  { subst w2. rewrite export_final_log. apply elem_of_app. right.
    apply elem_of_cons. right. apply elem_of_cons. now left. }
  destruct kept as [|q kept].
  - destruct Hend as [-> Hlog]. rewrite app_nil_r in Hsplit. subst removed.
    unfold os_rmdir in Hjob, Hraise, Hspec.
    destruct (rmdir_allowed E) eqn:Hdir; [discriminate Hraise|].
    exists (calling (Rmdir TEMP_DIR) w3), temp_files, [].
    split; [exact Hjob|]. split; [exact Hlast|]. split; [exact Hcall|].
    split; [now destruct (Hspec _ _ eq_refl) as [_ Ha]|].
    split.
    { intros Hin Hout. unfold menu_process. rewrite Hin, Hout. simpl. now rewrite Hjob. }
    split; [now rewrite app_nil_r|]. split; [exact Hall|].
    split; [split; [reflexivity|simpl; rewrite Hlog; now rewrite <- app_assoc]|].
    split; [exact Hgone|]. split; [|exact Hother].
    intros p Hp. now apply elem_of_nil in Hp.
  - destruct Hend as (Hno & -> & Hlog).
    exists w3, removed, (q :: kept).
    split; [exact Hjob|]. split; [exact Hlast|]. split; [exact Hcall|].
    split; [now destruct (Hspec _ _ eq_refl) as [_ Ha]|].
    split.
    { intros Hin Hout. unfold menu_process. rewrite Hin, Hout. simpl. now rewrite Hjob. }
    split; [exact Hsplit|]. split; [exact Hall|].
    split; [split; [exact Hno|exact Hlog]|].
    split; [exact Hgone|]. split; [|exact Hother].
    intros p Hp. rewrite (Hother p (Hapart p Hp)). apply Hex2, Hsub, Hp.
Qed.

(** The two segments of "input.txt" and a second file that is locked:
    the first file is removed, the second stays. *)
Lemma cleanup_failure_propagates_witness :
  let E := locked "tts_temp_segments/segment_1.mp3" fair_weather in
  let parsed := parse_input_file E "input.txt" 0 empty_world in
  let run := synthesis_phase E two_voices 0 (fst parsed) (snd parsed) in
  snd (fst run) <> 0%nat /\
  "tts_temp_segments/segment_1.mp3" ∈ fst (fst run) /\
  removable E "tts_temp_segments/segment_1.mp3" = false /\
  exists combined_audio w2 w' removed kept,
    process_and_concatenate E two_voices "input.txt" "out.wav" empty_world = (Raises, w') /\
    last (log w2) =
      Some (Printed (if exportable E (fst (export_target E "out.wav"))
                          (snd (export_target E "out.wav"))
                     then SaySuccess (fst (export_target E "out.wav"))
                     else FatalExport)) /\
    Called (Export (fst (export_target E "out.wav"))
              (snd (export_target E "out.wav")) combined_audio) ∈ log w2 /\
    adds removal w2 w' /\
    (Str.is_empty "input.txt" = false -> Str.is_empty "out.wav" = false ->
     menu_process E two_voices "input.txt" "out.wav" empty_world = say ErrUnexpected w') /\
    fst (fst run) = removed ++ kept /\
    (forall q, q ∈ removed -> removable E q = true) /\
    match kept with
    | q :: _ =>
        removable E q = false /\
        log w' = log w2 ++ map (fun p => Called (Remove p)) (removed ++ [q])
    | [] =>
        rmdir_allowed E = false /\
        log w' = log w2 ++ map (fun p => Called (Remove p)) (fst (fst run))
                 ++ [Called (Rmdir TEMP_DIR)]
    end /\
    (forall p, p ∈ removed -> files w' !! p = None) /\
    (forall p, p ∈ kept -> is_Some (files w' !! p)) /\
    (forall p, p ∉ removed -> files w' !! p = files w2 !! p).
Proof.
  intros E parsed run.
  assert ("tts_temp_segments/segment_1.mp3" ∈ fst (fst run)) as Hin.
  { vm_compute. apply list_elem_of_In. simpl. tauto. }
  split; [vm_compute; discriminate|]. split; [exact Hin|]. split; [reflexivity|].
  apply (cleanup_failure_propagates E two_voices "input.txt" "out.wav" empty_world
           (fst parsed) (snd parsed) (fst (fst run)) (snd (fst run)) (snd run)).
  - reflexivity.
  - subst run. now destruct (synthesis_phase _ _ _ _ _) as [[tf n] w1].
  - vm_compute. discriminate.
  - left. exists "tts_temp_segments/segment_1.mp3". split; [exact Hin|reflexivity].
Defined.

(** * Further properties *)

(** ** The catalog as [__init__] builds it *)

Lemma fold_snoc_imap {B : Type} (mk : nat -> B -> Voice.t) (listed : list B) :
  forall voices,
  fold_left (fun acc b => acc ++ [mk (length acc) b]) listed voices
  = voices ++ imap (fun k b => mk (length voices + k)%nat b) listed.
Proof.
  induction listed as [|b listed IH]; intros voices; simpl.
  - now rewrite app_nil_r.
  - rewrite IH, <- app_assoc. simpl. rewrite Nat.add_0_r. do 2 f_equal.
    apply imap_ext. intros k x _. simpl. rewrite length_app. simpl. f_equal. lia.
Qed.

(** X1. [__init__] exits exactly when neither provider lists a voice.
    Otherwise the catalog holds the local voices first, in the order
    listed, then the online ones, every voice carrying its position as
    its index, and [pyttsx3_available] tells whether the local listing
    went through without an exception. *)
Theorem init_builds_catalog (local : list Pyttsx3Voice) (completed : bool)
    (online : list EdgeVoice) :
  (UnifiedTTSEngine_init local completed online = None <-> local = [] /\ online = []) /\
  forall self,
  UnifiedTTSEngine_init local completed online = Some self ->
  unified_voices self
  = imap (fun k v => Voice.mk k pyttsx3 (sapi_name v) (sapi_id v)
                       (hd "N/A" (sapi_languages v))) local
    ++ imap (fun k v => Voice.mk (length local + k) edge_tts (Name v) (ShortName v)
                          (Locale v)) online /\
  pyttsx3_available self = completed /\
  length (unified_voices self) = (length local + length online)%nat /\
  dense (unified_voices self).
Proof.
  assert (forall voices,
          map_edge_tts_voices online (fst (map_pyttsx3_voices local completed [])) = voices ->
          voices
          = imap (fun k v => Voice.mk k pyttsx3 (sapi_name v) (sapi_id v)
                               (hd "N/A" (sapi_languages v))) local
            ++ imap (fun k v => Voice.mk (length local + k) edge_tts (Name v) (ShortName v)
                                  (Locale v)) online) as Hshape.
  { intros voices <-. unfold map_edge_tts_voices, map_pyttsx3_voices. simpl fst.
    rewrite (fold_snoc_imap (fun n v => Voice.mk n edge_tts (Name v) (ShortName v) (Locale v))).
    rewrite (fold_snoc_imap (fun n v => Voice.mk n pyttsx3 (sapi_name v) (sapi_id v)
                                          (hd "N/A" (sapi_languages v)))).
    simpl. now rewrite length_imap. }
  split.
  - unfold UnifiedTTSEngine_init. simpl.
    specialize (Hshape _ eq_refl). unfold map_pyttsx3_voices in Hshape. simpl in Hshape.
    destruct (map_edge_tts_voices online _) as [|v vs].
    + split; [intros _|reflexivity].
      symmetry in Hshape. apply app_eq_nil in Hshape as [H1 H2].
      apply (f_equal length) in H1. apply (f_equal length) in H2.
      rewrite length_imap in H1. rewrite length_imap in H2.
      now destruct local, online.
    + split; [discriminate|]. intros [-> ->]. discriminate Hshape.
  - intros self Hinit. pose proof (init_catalog _ _ _ _ Hinit) as [_ Hdense].
    unfold UnifiedTTSEngine_init in Hinit. simpl in Hinit.
    specialize (Hshape _ eq_refl). unfold map_pyttsx3_voices in Hshape. simpl in Hshape.
    destruct (map_edge_tts_voices online _) as [|v vs] eqn:Hall; [discriminate|].
    injection Hinit as <-. cbn [unified_voices pyttsx3_available] in *.
    split; [exact Hshape|]. split; [reflexivity|]. split; [|exact Hdense].
    now rewrite Hshape, length_app, !length_imap.
Qed.

(** X2. In a catalog built by [__init__], the voice found at an index
    from 0 up carries that index: looking up the index a voice shows
    gives that voice back. *)
Theorem lookup_gives_back_index (local : list Pyttsx3Voice) (completed : bool)
    (online : list EdgeVoice) (self : UnifiedTTSEngine) :
  UnifiedTTSEngine_init local completed online = Some self ->
  (forall index v, 0 <= index -> get_voice_by_index self index = Some v ->
                   Z.of_nat (Voice.index v) = index) /\
  (forall v, v ∈ unified_voices self ->
             get_voice_by_index self (Z.of_nat (Voice.index v)) = Some v).
Proof.
  intros Hinit. split.
  - intros index v. now apply (get_voice_by_index_dense local completed online).
  - intros v [k Hk]%list_elem_of_lookup_1.
    pose proof (init_catalog _ _ _ _ Hinit) as [_ Hdense].
    rewrite (Hdense _ _ Hk). unfold get_voice_by_index.
    pose proof (lookup_lt_Some _ _ _ Hk) as Hlt.
    rewrite py_getitem_front by lia. now rewrite Nat2Z.id.
Qed.

Lemma lookup_gives_back_index_witness :
  UnifiedTTSEngine_init
    [ {| sapi_name := "David"; sapi_id := "TTS_MS_EN-US_DAVID";
         sapi_languages := [] |} ] true
    [ {| Name := "AriaNeural"; ShortName := "en-US-AriaNeural";
         Locale := "en-US" |} ]
  = Some two_voices /\
  get_voice_by_index two_voices (Z.of_nat (Voice.index aria)) = Some aria.
Proof.
  split; [reflexivity|].
  apply (lookup_gives_back_index
           [ {| sapi_name := "David"; sapi_id := "TTS_MS_EN-US_DAVID";
                sapi_languages := [] |} ] true
           [ {| Name := "AriaNeural"; ShortName := "en-US-AriaNeural";
                Locale := "en-US" |} ] two_voices eq_refl).
  apply list_elem_of_In. simpl. tauto.
Defined.

(** ** The table of [list_voices] *)

Lemma times_length n c : String.length (Show.times n c) = n.
Proof. induction n as [|n IH]; simpl; [reflexivity|now rewrite IH]. Qed.

Lemma ljust_length width s :
  String.length (Show.ljust width s) = Nat.max width (String.length s).
Proof. unfold Show.ljust. rewrite append_length, times_length. lia. Qed.

Lemma take_length n s : String.length (Path.take n s) = Nat.min n (String.length s).
Proof.
  revert s. induction n as [|n IH]; intros [|c s]; simpl; try reflexivity.
  now rewrite IH.
Qed.

Lemma of_nat_short n : (n < 1000)%nat -> (String.length (Str.of_nat n) <= 3)%nat.
Proof.
  intros Hn.
  assert (forallb (fun k => String.length (Str.of_nat k) <=? 3)%nat (seq 0 1000) = true)
    as Hall by (vm_compute; reflexivity).
  rewrite forallb_forall in Hall. apply Nat.leb_le, Hall, in_seq. lia.
Qed.

Lemma display_name_length name : String.length (Show.display_name name) = 50%nat.
Proof.
  unfold Show.display_name.
  destruct (Nat.ltb_spec 50 (String.length name)) as [Hlong|Hshort].
  - rewrite append_length, take_length.
    change (String.length "...") with 3%nat. lia.
  - rewrite ljust_length. lia.
Qed.

(** X3. The name column is always 50 characters wide: a name of more
    than 50 characters is cut to its first 47 and three dots, and a
    name of at most 50 is shown in full, padded with spaces. *)
Theorem display_name_width (name : string) :
  String.length (Show.display_name name) = 50%nat /\
  ((String.length name <= 50)%nat ->
   Show.display_name name
   = name +:+ Show.times (50 - String.length name) " ") /\
  ((50 < String.length name)%nat ->
   Show.display_name name = Path.take 47 name +:+ "..." /\
   String.length (Path.take 47 name) = 47%nat).
Proof.
  split; [apply display_name_length|].
  unfold Show.display_name.
  destruct (Nat.ltb_spec 50 (String.length name)) as [Hlong|Hshort].
  - split; [lia|].
    intros _. split; [reflexivity|]. rewrite take_length. lia.
  - split; [reflexivity|lia].
Qed.

(** X4. [list_voices] prints the title, the header, the rule, one row
    for each voice in the order of the catalog, and the closing line.
    A row whose index is below 1000 and whose language tag has at most
    10 characters is exactly as wide as the header. *)
Theorem list_voices_table (self : UnifiedTTSEngine) :
  length (Show.list_voices self) = (4 + length (unified_voices self))%nat /\
  (forall k, (k < length (unified_voices self))%nat ->
             Show.list_voices self !! (3 + k)%nat
             = Show.voice_row <$> unified_voices self !! k) /\
  (forall voice, voice ∈ unified_voices self ->
                 (Voice.index voice < 1000)%nat ->
                 (String.length (Voice.lang voice) <= 10)%nat ->
                 String.length (Show.voice_row voice) = String.length Show.header_row).
Proof.
  split; [|split].
  - unfold Show.list_voices. simpl. rewrite length_app, length_map. simpl. lia.
  - intros k Hk. unfold Show.list_voices. simpl.
    rewrite lookup_app_l by now rewrite length_map.
    apply list_lookup_fmap.
  - intros voice _ Hindex Hlang. unfold Show.voice_row.
    pose proof (of_nat_short _ Hindex) as Hshort.
    pose proof (display_name_length (Show.listed_name voice)) as Hwidth.
    rewrite !append_length, !ljust_length, Hwidth.
    replace (String.length Show.header_row) with 86%nat by reflexivity.
    assert (String.length (Show.engine_name (Voice.engine voice)) <= 10)%nat
      by (destruct (Voice.engine voice); simpl; lia).
    cbn [String.length]. lia.
Qed.

(** ** What every parsed segment looks like *)

Lemma rstrip_by_idempotent p s :
  Str.rstrip_by p (Str.rstrip_by p s) = Str.rstrip_by p s.
Proof.
  induction s as [|c s IH]; simpl; [reflexivity|].
  destruct (Str.rstrip_by p s) as [|d r] eqn:Hr.
  - destruct (p c) eqn:Hc; simpl; [reflexivity|now rewrite Hc].
  - simpl. simpl in IH. now rewrite IH.
Qed.

Lemma rstrip_by_head p c s :
  p c = false -> exists r, Str.rstrip_by p (String c s) = String c r.
Proof.
  intros Hc. simpl. destruct (Str.rstrip_by p s); rewrite ?Hc; eauto.
Qed.

Lemma lstrip_by_head p s :
  match Str.lstrip_by p s with
  | EmptyString => True
  | String c _ => p c = false
  end.
Proof.
  induction s as [|c s IH]; simpl; [exact I|].
  destruct (p c) eqn:Hc; [exact IH|exact Hc].
Qed.

(** What [strip] returns is empty or begins with a character it would
    not remove. *)
Lemma strip_by_head p s :
  match Str.strip_by p s with
  | EmptyString => True
  | String c _ => p c = false
  end.
Proof.
  unfold Str.strip_by. pose proof (lstrip_by_head p s) as H.
  destruct (Str.lstrip_by p s) as [|c t]; [exact I|].
  destruct (rstrip_by_head p c t H) as [r ->]. exact H.
Qed.

Lemma strip_by_idempotent p s :
  Str.strip_by p (Str.strip_by p s) = Str.strip_by p s.
Proof.
  pose proof (strip_by_head p s) as H. unfold Str.strip_by at 1.
  destruct (Str.strip_by p s) as [|c r] eqn:Hs; [reflexivity|].
  simpl Str.lstrip_by. rewrite H. rewrite <- Hs. unfold Str.strip_by.
  apply rstrip_by_idempotent.
Qed.

Lemma all_append P a b :
  Str.all P (a +:+ b) = Str.all P a && Str.all P b.
Proof.
  induction a as [|c a IH]; simpl; [reflexivity|]. now rewrite IH, andb_assoc.
Qed.

Lemma all_lstrip_by P p s : Str.all P s = true -> Str.all P (Str.lstrip_by p s) = true.
Proof.
  induction s as [|c s IH]; simpl; [auto|].
  intros [Hc Hs]%andb_prop. destruct (p c); [auto|]. simpl. now rewrite Hc, Hs.
Qed.

Lemma all_rstrip_by P p s : Str.all P s = true -> Str.all P (Str.rstrip_by p s) = true.
Proof.
  induction s as [|c s IH]; simpl; [auto|].
  intros [Hc Hs]%andb_prop. specialize (IH Hs).
  destruct (Str.rstrip_by p s) as [|d r].
  - destruct (p c); simpl; [reflexivity|now rewrite Hc].
  - simpl. simpl in IH. now rewrite Hc, IH.
Qed.

Lemma all_strip P s : Str.all P s = true -> Str.all P (Str.strip s) = true.
Proof. intros H. now apply all_rstrip_by, all_lstrip_by. Qed.

(** No line feed is left by the first replacement, and no carriage
    return by the second. *)
Lemma normalize_no_line_break content :
  Str.all no_line_break (normalize content) = true.
Proof.
  unfold normalize. induction content as [|c s IH]; simpl; [reflexivity|].
  destruct (Ascii.eqb_spec c "010") as [->|Hlf]; simpl; [exact IH|].
  destruct (Ascii.eqb_spec c "013") as [->|Hcr]; simpl; [exact IH|].
  rewrite IH, andb_true_r. unfold no_line_break.
  apply Ascii.eqb_neq in Hlf, Hcr. now rewrite Hlf, Hcr.
Qed.

Lemma all_after_tag P pat s t :
  VOICE_CMD_PATTERN.after_tag pat s = Some t -> Str.all P s = true -> Str.all P t = true.
Proof.
  revert s. induction pat as [|p pat IH]; intros s; simpl.
  - now intros [= ->].
  - destruct s as [|c s]; [discriminate|].
    destruct (Char.eqb_nocase c p); [|discriminate].
    intros Ht [_ Hs]%andb_prop. eauto.
Qed.

Lemma all_span_digits P s :
  Str.all P s = true ->
  Str.all P (fst (Str.span_digits s)) = true /\ Str.all P (snd (Str.span_digits s)) = true.
Proof.
  induction s as [|c s IH]; simpl; [auto|].
  intros Hall. pose proof Hall as [Hc Hs]%andb_prop. destruct (Char.isdigit c).
  - destruct (IH Hs) as [Hd Hr]. destruct (Str.span_digits s) as [d rest].
    simpl in *. now rewrite Hc, Hd.
  - simpl. now rewrite Hall.
Qed.

Lemma all_match P s d rest :
  VOICE_CMD_PATTERN.match_ s = Some (d, rest) -> Str.all P s = true ->
  Str.all P d = true /\ Str.all P rest = true.
Proof.
  unfold VOICE_CMD_PATTERN.match_.
  destruct (VOICE_CMD_PATTERN.after_tag _ s) as [t|] eqn:Ht; [|discriminate].
  intros Hm Hs. pose proof (all_span_digits P t (all_after_tag P _ _ _ Ht Hs)) as [Hd Hr].
  destruct (Str.span_digits t) as [[|c d'] rest']; [discriminate|].
  injection Hm as <- <-. auto.
Qed.

(** Every part of a split is made of characters of the text. *)
Lemma all_split_scan P fuel :
  forall chunk s, Str.all P chunk = true -> Str.all P s = true ->
  Forall (fun part => Str.all P part = true) (VOICE_CMD_PATTERN.split_scan fuel chunk s).
Proof.
  induction fuel as [|fuel IH]; intros chunk s Hchunk Hs; simpl; [now repeat constructor|].
  destruct (VOICE_CMD_PATTERN.match_ s) as [[d rest]|] eqn:Hm.
  - destruct (all_match P _ _ _ Hm Hs) as [Hd Hrest].
    repeat constructor; try assumption. now apply IH.
  - destruct s as [|c s]; [now repeat constructor|].
    simpl in Hs. apply andb_prop in Hs as [Hc Hs'].
    apply IH; [|exact Hs']. rewrite all_append, Hchunk. simpl. now rewrite Hc.
Qed.

Lemma digit_value_nonneg c : Char.isdigit c = true -> 0 <= Char.digit_value c.
Proof.
  destruct c as [[] [] [] [] [] [] [] []]; vm_compute; congruence.
Qed.

Lemma int_digits_nonneg s :
  forall acc prev n, 0 <= acc -> Str.int_digits acc prev s = Some n -> 0 <= n.
Proof.
  induction s as [|c s IH]; intros acc prev n Hacc; simpl.
  - destruct prev; [now intros [= <-]|discriminate].
  - destruct (Char.isdigit c) eqn:Hc.
    + apply IH. pose proof (digit_value_nonneg c Hc). lia.
    + destruct (Ascii.eqb c "_" && prev); [now apply IH|discriminate].
Qed.

Lemma strip_by_keeps_head p c s :
  p c = false -> exists r, Str.strip_by p (String c s) = String c r.
Proof.
  intros Hc. unfold Str.strip_by. simpl Str.lstrip_by. rewrite Hc. simpl.
  destruct (Str.rstrip_by p s); [rewrite Hc|]; eauto.
Qed.

(** [int] of a string that begins with a digit is not negative. *)
Lemma int_digit_led_nonneg c s n :
  Char.isdigit c = true -> Str.int (String c s) = Some n -> 0 <= n.
Proof.
  intros Hc. unfold Str.int.
  destruct (strip_by_keeps_head Char.int_space c s (digit_not_int_space c Hc)) as [r ->].
  rewrite (digit_is_no_sign c r Hc). unfold Str.int_unsigned.
  destruct (Str.int_max_str_digits <? _); [discriminate|].
  now apply int_digits_nonneg.
Qed.

(** The loop keeps what holds of the cursor and of the segments. *)
Lemma parse_loop_invariant (P : Segment -> Prop) (C : Z -> Prop) parts :
  (forall raw v, raw ∈ parts -> C v ->
     Str.is_empty (Str.strip raw) = false ->
     VOICE_CMD_PATTERN.match_ (VOICE_CMD_PATTERN.tag +:+ Str.strip raw) = None ->
     P {| text := Str.strip raw; voice_index := v |}) ->
  (forall raw n m, raw ∈ parts ->
     VOICE_CMD_PATTERN.match_ (VOICE_CMD_PATTERN.tag +:+ Str.strip raw) = Some m ->
     Str.int (Str.strip raw) = Some n -> C n) ->
  forall v segments, C v -> Forall P segments -> Forall P (parse_loop parts v segments).
Proof.
  induction parts as [|raw rest IH]; intros Htext Hswitch v segments Hv Hsegs;
    simpl; [exact Hsegs|].
  assert (forall v segments, C v -> Forall P segments ->
          Forall P (parse_loop rest v segments)) as Hrest.
  { apply IH.
    - intros r u Hr. apply Htext. now right.
    - intros r n m Hr. apply (Hswitch r n m). now right. }
  destruct (Str.is_empty (Str.strip raw)) eqn:Hblank; [now apply Hrest|].
  destruct (VOICE_CMD_PATTERN.match_ _) as [m|] eqn:Hm.
  - destruct (Str.int (Str.strip raw)) as [n|] eqn:Hint; [|now apply Hrest].
    apply Hrest; [|exact Hsegs]. apply (Hswitch raw n m); [now left|exact Hm|exact Hint].
  - apply Hrest; [exact Hv|]. apply Forall_app. split; [exact Hsegs|].
    constructor; [|constructor]. apply Htext; [now left|assumption..].
Qed.

(** X5. Whatever the document, every segment of the parse has a text
    that is not empty, has no white space at either end, begins with
    no digit and holds no line break, and a voice index that is the
    default one or is not negative. *)
Theorem parsed_segments_are_clean (content : string) (default_voice_index : Z) :
  Forall
    (fun segment =>
       Str.is_empty (text segment) = false /\
       Str.strip (text segment) = text segment /\
       match text segment with
       | String c _ => Char.isdigit c = false /\ Char.isspace c = false
       | EmptyString => False
       end /\
       Str.all no_line_break (text segment) = true /\
       (voice_index segment = default_voice_index \/ 0 <= voice_index segment))
    (parse_content content default_voice_index).
Proof.
  unfold parse_content.
  pose proof (all_split_scan no_line_break (S (String.length (normalize content)))
                EmptyString (normalize content) eq_refl (normalize_no_line_break content))
    as Hparts.
  fold (VOICE_CMD_PATTERN.split (normalize content)) in Hparts.
  rewrite Forall_forall in Hparts.
  apply (parse_loop_invariant _
           (fun v => v = default_voice_index \/ 0 <= v)); [| |now left|constructor].
  - intros raw v Hraw Hv Hne Hm. simpl.
    split; [exact Hne|]. split; [apply strip_by_idempotent|].
    split; [|split; [apply all_strip, Hparts, Hraw|exact Hv]].
    pose proof (strip_by_head Char.isspace raw) as Hhead. fold (Str.strip raw) in Hhead.
    destruct (Str.strip raw) as [|c s] eqn:Hs; [discriminate Hne|].
    split; [|exact Hhead].
    destruct (Char.isdigit c) eqn:Hc; [|reflexivity].
    assert (is_Some (VOICE_CMD_PATTERN.match_ (VOICE_CMD_PATTERN.tag +:+ String c s)))
      as [x Hx] by (apply rebuilt_directive_matches; eauto).
    congruence.
  - intros raw n m Hraw Hm Hint. right.
    assert (is_Some (VOICE_CMD_PATTERN.match_ (VOICE_CMD_PATTERN.tag +:+ Str.strip raw)))
      as (c & s & Hs & Hc)%rebuilt_directive_matches by eauto.
    rewrite Hs in Hint. exact (int_digit_led_nonneg c s n Hc Hint).
Qed.

(** ** Appending strings *)

Lemma append_nil_l s : EmptyString +:+ s = s.
Proof. reflexivity. Qed.

Lemma append_cons c a b : String c a +:+ b = String c (a +:+ b).
Proof. reflexivity. Qed.

Ltac unappend := rewrite ?append_nil_l, ?append_cons in *.

Lemma append_nil_r s : s +:+ EmptyString = s.
Proof. induction s as [|c s IH]; [reflexivity|]. rewrite append_cons. now f_equal. Qed.

Lemma append_snoc chunk c s :
  (chunk +:+ String c EmptyString) +:+ s = chunk +:+ String c s.
Proof.
  induction chunk as [|d chunk IH]; [reflexivity|]. rewrite !append_cons. now f_equal.
Qed.

(** ** Documents with nothing to say *)

Lemma space_is_no_slash c : Char.isspace c = true -> Char.eqb_nocase c "/" = false.
Proof. destruct c as [[] [] [] [] [] [] [] []]; vm_compute; congruence. Qed.

Lemma space_stays_space c :
  Char.isspace c = true -> Char.isspace (if Ascii.eqb c "010" then " "%char else c) = true.
Proof. destruct c as [[] [] [] [] [] [] [] []]; vm_compute; congruence. Qed.

Lemma normalize_blank content :
  Str.all Char.isspace content = true -> Str.all Char.isspace (normalize content) = true.
Proof.
  unfold normalize. induction content as [|c s IH]; simpl; [reflexivity|].
  intros [Hc Hs]%andb_prop. specialize (IH Hs).
  destruct (Ascii.eqb_spec c "010") as [->|Hlf]; simpl; [exact IH|].
  destruct (Ascii.eqb c "013"); simpl; [exact IH|]. now rewrite Hc, IH.
Qed.

Lemma split_scan_blank fuel :
  forall chunk s, Str.all Char.isspace s = true -> (String.length s < fuel)%nat ->
  VOICE_CMD_PATTERN.split_scan fuel chunk s = [chunk +:+ s].
Proof.
  induction fuel as [|fuel IH]; intros chunk s Hs Hfuel; [lia|]. simpl.
  destruct s as [|c s].
  - unfold VOICE_CMD_PATTERN.match_. simpl. now rewrite append_nil_r.
  - simpl in Hs. apply andb_prop in Hs as [Hc Hs].
    unfold VOICE_CMD_PATTERN.match_. simpl. rewrite (space_is_no_slash c Hc).
    rewrite IH by (simpl in Hfuel; auto; lia). now rewrite append_snoc.
Qed.

Lemma lstrip_blank s : Str.all Char.isspace s = true -> Str.lstrip_by Char.isspace s = EmptyString.
Proof.
  induction s as [|c s IH]; simpl; [reflexivity|].
  intros [Hc Hs]%andb_prop. rewrite Hc. auto.
Qed.

Lemma parse_content_blank content default_voice_index :
  Str.all Char.isspace content = true ->
  parse_content content default_voice_index = [].
Proof.
  intros Hblank%normalize_blank. unfold parse_content, VOICE_CMD_PATTERN.split.
  rewrite split_scan_blank by (auto; lia). rewrite append_nil_l.
  unfold parse_loop, Str.strip, Str.strip_by. now rewrite (lstrip_blank _ Hblank).
Qed.

(** X7. A document of white space alone, the empty one included, has
    no segment, whatever the default voice. *)
Theorem blank_document_has_no_segment (content : string) (default_voice_index : Z) :
  Str.all Char.isspace content = true ->
  parse_content content default_voice_index = [].
Proof. exact (parse_content_blank content default_voice_index). Qed.

Lemma blank_document_has_no_segment_witness :
  Str.all Char.isspace (String "010" (String "009" "  ")) = true /\
  parse_content (String "010" (String "009" "  ")) 5 = [].
Proof.
  split; [reflexivity|].
  apply (blank_document_has_no_segment (String "010" (String "009" "  ")) 5).
  reflexivity.
Defined.

(** X8. An input file that cannot be read, or one of white space
    alone, leaves the job with nothing to do: it returns after saying
    so, no file has changed, and nothing was called, not even for the
    temporary directory. *)
Theorem nothing_to_do (E : env) (engine : UnifiedTTSEngine)
    (input_file output_file : string) (w : world) :
  match read_text E input_file with
  | ReadOk content => Str.all Char.isspace content = true
  | FileNotFound | ReadError => True
  end ->
  exists w',
    process_and_concatenate E engine input_file output_file w = (Returns, w') /\
    files w' = files w /\
    last (log w') = Some (Printed SayNoSegments) /\
    exists printed, log w' = log w ++ map Printed printed.
Proof.
  intros Hread. unfold process_and_concatenate, parse_input_file.
  destruct (read_text E input_file) as [content| |].
  - rewrite (parse_content_blank _ 0 Hread). simpl.
    eexists. split; [reflexivity|]. split; [reflexivity|]. split.
    + simpl. now rewrite last_app.
    + now exists [SayNoSegments].
  - simpl. eexists. split; [reflexivity|]. split; [reflexivity|]. split.
    + simpl. now rewrite last_app.
    + exists [ErrInputNotFound input_file; SayNoSegments]. simpl.
      now rewrite <- app_assoc.
  - simpl. eexists. split; [reflexivity|]. split; [reflexivity|]. split.
    + simpl. now rewrite last_app.
    + exists [ErrInputOpen input_file; SayNoSegments]. simpl.
      now rewrite <- app_assoc.
Qed.

Lemma nothing_to_do_witness :
  read_text fair_weather "missing.txt" = FileNotFound /\
  exists w',
    process_and_concatenate fair_weather two_voices "missing.txt" "out.wav" empty_world
    = (Returns, w') /\
    files w' = files empty_world /\
    last (log w') = Some (Printed SayNoSegments) /\
    exists printed, log w' = log empty_world ++ map Printed printed.
Proof.
  split; [reflexivity|].
  apply (nothing_to_do fair_weather two_voices "missing.txt" "out.wav" empty_world).
  exact I.
Defined.

(** ** Documents whose text begins with no digit *)

(** Two chunks of text around one directive. *)
Lemma parse_content_described_witness :
  Forall not_digit_led
    (text_chunks (VOICE_CMD_PATTERN.split (normalize "Hello. /voice=1 World."))) /\
  Forall within_int_limit
    (digit_groups (VOICE_CMD_PATTERN.split (normalize "Hello. /voice=1 World."))) /\
  parse_content "Hello. /voice=1 World." 0
  = described_segments 0 (VOICE_CMD_PATTERN.split (normalize "Hello. /voice=1 World.")) /\
  length (parse_content "Hello. /voice=1 World." 0)
  = length (filter (fun chunk => Str.is_empty (Str.strip chunk) = false)
              (text_chunks (VOICE_CMD_PATTERN.split (normalize "Hello. /voice=1 World.")))).
Proof.
  assert (Forall not_digit_led
            (text_chunks (VOICE_CMD_PATTERN.split (normalize "Hello. /voice=1 World."))))
    as Htext by (repeat constructor).
  assert (Forall within_int_limit
            (digit_groups (VOICE_CMD_PATTERN.split (normalize "Hello. /voice=1 World."))))
    as Hlimit by (repeat constructor; vm_compute; discriminate).
  split; [exact Htext|]. split; [exact Hlimit|].
  apply (parse_content_described "Hello. /voice=1 World." 0 Htext Hlimit).
Defined.

(** ** The order of a job *)

Lemma concatenation_loop_assembly E temp_files :
  forall combined_audio w,
  adds assembly_only w (snd (concatenation_loop E temp_files combined_audio w)).
Proof.
  induction temp_files as [|temp_path rest IH]; intros combined_audio w; simpl.
  - apply adds_refl.
  - destruct (from_file E temp_path _) as [segment_audio|].
    + eapply adds_trans; [|apply IH]. adds_steps.
    + eapply adds_trans; [|apply IH]. adds_steps.
Qed.

Lemma export_final_assembly E combined_audio output_file w :
  adds assembly_only w (export_final E combined_audio output_file w).
Proof.
  eexists. split; [apply export_final_log|].
  repeat constructor. now destruct (exportable E _ _).
Qed.

Lemma cleanup_assembly E temp_files w :
  adds assembly_only w (snd (cleanup E temp_files w)).
Proof.
  assert (forall e, removal e -> assembly_only e) as Hweak.
  { intros [m|[]]; simpl; try contradiction; reflexivity. }
  destruct (cleanup E temp_files w) as [c w'] eqn:Hc.
  apply cleanup_spec in Hc as (_ & Hc). simpl. destruct c.
  - destruct Hc as (_ & w1 & Ha & ->).
    apply adds_say; [|reflexivity]. eapply adds_weaken; eauto.
  - eapply adds_weaken; eauto.
Qed.

Lemma adds_then P Q w w1 w2 :
  adds P w w1 -> adds Q w1 w2 ->
  exists first second,
    log w2 = log w ++ first ++ second /\ Forall P first /\ Forall Q second.
Proof.
  intros (e1 & H1 & F1) (e2 & H2 & F2). exists e1, e2.
  rewrite H2, H1, <- app_assoc. auto.
Qed.

(** X10. What a job adds to the log comes in two runs: first the
    events of the synthesis (the directory, the warnings, the
    announcements, the calls of the providers, the failures), then the
    events of loading, exporting and cleaning up.  No provider is
    called once the first file has been loaded, and nothing is loaded,
    exported or removed before the last segment has been tried. *)
Theorem job_log_in_two_runs (E : env) (engine : UnifiedTTSEngine)
    (default_voice_index : Z) (segments : list Segment) (output_file : string)
    (w : world) :
  exists synthesis assembly,
    log (snd (process_segments E engine default_voice_index segments output_file w))
    = log w ++ synthesis ++ assembly /\
    Forall synthesis_only synthesis /\
    Forall assembly_only assembly.
Proof.
  destruct segments as [|segment rest] eqn:Hsegs.
  - exists [Printed SayNoSegments], []. simpl. repeat constructor.
  - rewrite <- Hsegs.
    destruct (synthesis_phase E engine default_voice_index segments w)
      as [[temp_files n] w1] eqn:Hphase.
    pose proof (synthesis_phase_spec _ _ _ _ _ _ _ _ Hphase) as (_ & _ & _ & Ha & _).
    destruct n as [|n].
    + rewrite (process_segments_aborts _ _ _ _ _ _ temp_files w1); [|congruence|exact Hphase].
      apply (adds_then _ _ w (say ErrNoAudio w1)); [adds_steps|apply adds_refl].
    + rewrite (process_segments_assembles _ _ _ _ _ _ _ _ _ Hphase) by discriminate.
      apply (adds_then _ _ w w1); [exact Ha|].
      eapply adds_trans; [|apply cleanup_assembly].
      eapply adds_trans; [|apply export_final_assembly].
      eapply adds_trans; [|apply concatenation_loop_assembly]. adds_steps.
Qed.

(** ** The files of a job *)

Lemma omap_id_length {A : Type} (l : list (option A)) : (length (omap id l) <= length l)%nat.
Proof.
  induction l as [|[a|] l IH]; simpl; [lia| |];
    change (list_omap (option A) A id l) with (omap id l); lia.
Qed.

Lemma temp_files_named E engine default_voice_index segments w temp_files n w1 :
  synthesis_phase E engine default_voice_index segments w = (temp_files, n, w1) ->
  forall q, q ∈ temp_files ->
  exists j, (j < length segments)%nat /\ temp_path_of E j q.
Proof.
  intros Hphase q Hq.
  pose proof (synthesis_phase_spec _ _ _ _ _ _ _ _ Hphase) as (-> & _ & Hlen & _).
  apply list_elem_of_omap in Hq as (x & Hx & Hxq). simpl in Hxq. subst x.
  apply list_elem_of_lookup_1 in Hx as [k Hk].
  exists k. split.
  - rewrite <- Hlen. eapply lookup_lt_Some. exact Hk.
  - unfold synthesis_phase in Hphase.
    now apply (synthesis_results_files _ _ _ _ _ _ _ _ _ _ _ Hphase k q).
Qed.

(** X11. After step 2 the counter of successes is the number of
    temporary files, at most the number of segments; the files are
    pairwise different, each is on disk, and each bears one of the two
    names of a segment of the job. *)
Theorem temp_files_after_synthesis (E : env) (engine : UnifiedTTSEngine)
    (default_voice_index : Z) (segments : list Segment) (w : world) :
  let run := synthesis_phase E engine default_voice_index segments w in
  snd (fst run) = length (fst (fst run)) /\
  (length (fst (fst run)) <= length segments)%nat /\
  NoDup (fst (fst run)) /\
  forall q, q ∈ fst (fst run) ->
    is_Some (files (snd run) !! q) /\
    exists j, (j < length segments)%nat /\ temp_path_of E j q.
Proof.
  intros run. subst run.
  destruct (synthesis_phase E engine default_voice_index segments w)
    as [[temp_files n] w1] eqn:Hphase. simpl.
  pose proof (synthesis_phase_spec _ _ _ _ _ _ _ _ Hphase)
    as (Htf & Hn & Hlen & _ & Hnd & Hex).
  split; [exact Hn|]. split; [|split; [exact Hnd|]].
  - rewrite Htf, <- Hlen. apply omap_id_length.
  - intros q Hq. split; [now apply Hex|]. eapply temp_files_named; eauto.
Qed.



(** ** How a job ends *)

(** X13. A job that returns after it has synthesized a segment leaves
    none of its temporary files behind, and its last word is that the
    temporary files are cleaned up: the cleanup has removed every one
    of them, whether or not the export succeeded. *)
Theorem returned_job_leaves_no_temp_file (E : env) (engine : UnifiedTTSEngine)
    (default_voice_index : Z) (segments : list Segment) (output_file : string)
    (w : world) :
  let run := synthesis_phase E engine default_voice_index segments w in
  let job := process_segments E engine default_voice_index segments output_file w in
  fst job = Returns -> snd (fst run) <> 0%nat ->
  (forall q, q ∈ fst (fst run) ->
     Called (Remove q) ∈ log (snd job) /\ files (snd job) !! q = None) /\
  Called (Rmdir TEMP_DIR) ∈ log (snd job) /\
  last (log (snd job)) = Some (Printed SayCleanedUp).
Proof.
  intros run job. subst run job.
  destruct (synthesis_phase E engine default_voice_index segments w)
    as [[temp_files n] w1] eqn:Hphase. simpl.
  intros Hret Hn.
  rewrite (process_segments_assembles _ _ _ _ _ _ _ _ _ Hphase Hn) in *.
  pose proof (synthesis_phase_spec _ _ _ _ _ _ _ _ Hphase) as (_ & _ & _ & _ & Hnd & Hex).
  pose proof (concatenation_loop_spec E temp_files [] (say SayStartConcatenation w1))
    as (_ & Hfiles & _).
  set (loaded := concatenation_loop E temp_files [] (say SayStartConcatenation w1)) in *.
  set (w2 := export_final E (fst loaded) output_file (snd loaded)) in *.
  assert (forall q, q ∈ temp_files -> is_Some (files w2 !! q)) as Hex2.
  { intros q Hq. apply export_final_keeps. rewrite Hfiles. now apply Hex. }
  destruct (remove_loop_stops E temp_files w2 Hnd Hex2)
    as (removed & kept & Hsplit & _ & Hend & Hgone & _).
  unfold cleanup in *. destruct (remove_loop E temp_files w2) as [c w3].
  simpl in Hend, Hgone.
  destruct kept as [|q kept]; [|now destruct Hend as (_ & -> & _)].
  destruct Hend as [-> Hlog]. rewrite app_nil_r in Hsplit. subst removed.
  unfold os_rmdir in *. destruct (rmdir_allowed E); [|discriminate Hret].
  simpl. split; [|split].
  - intros q Hq. split; [|now apply Hgone].
    rewrite Hlog. apply elem_of_app. left. apply elem_of_app. left.
    apply elem_of_app. right. apply list_elem_of_In, (in_map (fun p => Called (Remove p))).
    now apply list_elem_of_In.
  - apply elem_of_app. left. apply elem_of_app. right. now left.
  - now rewrite last_app.
Qed.

Lemma returned_job_leaves_no_temp_file_witness :
  let run := synthesis_phase fair_weather two_voices 0
               (parse_content "Hello. /voice=1 Bye" 0) empty_world in
  let job := process_segments fair_weather two_voices 0
               (parse_content "Hello. /voice=1 Bye" 0) "out.wav" empty_world in
  fst job = Returns /\
  fst (fst run) = ["tts_temp_segments/segment_0.wav"; "tts_temp_segments/segment_1.mp3"] /\
  (forall q, q ∈ fst (fst run) ->
     Called (Remove q) ∈ log (snd job) /\ files (snd job) !! q = None) /\
  Called (Rmdir TEMP_DIR) ∈ log (snd job) /\
  last (log (snd job)) = Some (Printed SayCleanedUp).
Proof.
  intros run job. split; [reflexivity|]. split; [reflexivity|].
  apply (returned_job_leaves_no_temp_file fair_weather two_voices 0
           (parse_content "Hello. /voice=1 Bye" 0) "out.wav" empty_world).
  - reflexivity.
  - vm_compute. discriminate.
Defined.

(** ** The reports of a job *)

Lemma try_provider_well_reported engine E voice text path w :
  adds (well_reported engine) w (snd (try_provider E voice text path w)).
Proof.
  unfold try_provider.
  destruct (written _) as [a|]; destruct (raised _); simpl;
    try (destruct (path_exists _ _); simpl); adds_steps.
Qed.

Lemma synthesize_segment_well_reported E self text voice_index base w :
  is_Some (get_voice_by_index self voice_index) ->
  adds (well_reported self) w (snd (synthesize_segment E self text voice_index base w)).
Proof.
  intros [voice Hvoice]. unfold synthesize_segment. rewrite Hvoice.
  destruct (Voice.engine voice);
    [destruct (pyttsx3_available self); simpl|];
    try (eapply adds_trans; [|apply try_provider_well_reported]); adds_steps.
Qed.

Lemma synthesize_one_well_reported E engine i segment w :
  unified_voices engine <> [] -> 0 <= voice_index segment ->
  adds (well_reported engine) w (snd (synthesize_one E engine 0 i segment w)).
Proof.
  intros Hvoices Hindex. unfold synthesize_one.
  destruct (Z.leb_spec (Z.of_nat (length (unified_voices engine))) (voice_index segment))
    as [Hout|Hin].
  - pose proof (synthesize_segment_well_reported E engine (text segment) 0
                  (base_temp_path E i) (say (WarnOutOfRange (voice_index segment) 0) w)
                  (first_voice_found engine Hvoices)) as Ha.
    destruct (synthesize_segment _ _ _ _ _ _) as [r w']. simpl in *.
    eapply adds_trans; [|exact Ha]. apply adds_say; [apply adds_refl|exact Hout].
  - assert (is_Some (get_voice_by_index engine (voice_index segment))) as Hfound.
    { unfold get_voice_by_index. rewrite py_getitem_front by lia.
      apply lookup_lt_is_Some. lia. }
    pose proof (synthesize_segment_well_reported E engine (text segment)
                  (voice_index segment) (base_temp_path E i) w Hfound) as Ha.
    now destruct (synthesize_segment _ _ _ _ _ _) as [r w'].
Qed.

Lemma synthesis_loop_well_reported E engine segments :
  unified_voices engine <> [] ->
  Forall (fun segment => 0 <= voice_index segment) segments ->
  forall i temp_files successful w,
  adds (well_reported engine) w
    (snd (synthesis_loop E engine 0 i segments temp_files successful w)).
Proof.
  intros Hvoices. induction 1 as [|segment rest Hindex Hrest IH];
    intros i tf n w; simpl; [apply adds_refl|].
  pose proof (synthesize_one_well_reported E engine i segment w Hvoices Hindex) as Ha.
  destruct (synthesize_one E engine 0 i segment w) as [[vi [path|]] w1]; simpl in Ha.
  - eapply adds_trans; [exact Ha|apply IH].
  - eapply adds_trans; [exact Ha|]. eapply adds_trans; [|apply IH]. adds_steps.
Qed.

Lemma parse_content_indices content :
  Forall (fun segment => 0 <= voice_index segment) (parse_content content 0).
Proof.
  unfold parse_content.
  apply (parse_loop_invariant _ (fun v => 0 <= v)); [| |lia|constructor].
  - intros raw v _ Hv _ _. exact Hv.
  - intros raw n m _ Hm Hint.
    assert (is_Some (VOICE_CMD_PATTERN.match_ (VOICE_CMD_PATTERN.tag +:+ Str.strip raw)))
      as (c & s & Hs & Hc)%rebuilt_directive_matches by eauto.
    rewrite Hs in Hint. exact (int_digit_led_nonneg c s n Hc Hint).
Qed.

(** X14. With a catalog that is not empty, a job never reports that a
    voice was not found, and it warns of an index out of range only
    for an index that is at least the size of the catalog: the parser
    gives no negative index, an index too large is replaced by 0, and
    voice 0 is there. *)
Theorem voices_are_always_found (E : env) (engine : UnifiedTTSEngine)
    (input_file output_file : string) (w : world) :
  unified_voices engine <> [] ->
  exists added,
    log (snd (process_and_concatenate E engine input_file output_file w))
    = log w ++ added /\
    Forall (well_reported engine) added.
Proof.
  intros Hvoices. change (adds (well_reported engine) w
    (snd (process_and_concatenate E engine input_file output_file w))).
  assert (forall e, assembly_only e -> well_reported engine e) as Hweak.
  { intros [[]|c]; simpl; try discriminate; auto. }
  unfold process_and_concatenate.
  destruct (parse_input_file E input_file 0 w) as [segments w0] eqn:Hparse.
  assert (adds (well_reported engine) w w0 /\
          Forall (fun segment => 0 <= voice_index segment) segments) as [Ha0 Hindices].
  { unfold parse_input_file in Hparse.
    destruct (read_text E input_file); injection Hparse as <- <-.
    - split; [apply adds_refl|apply parse_content_indices].
    - split; [adds_steps|constructor].
    - split; [adds_steps|constructor]. }
  eapply adds_trans; [exact Ha0|]. clear Hparse Ha0.
  destruct segments as [|segment rest] eqn:Hsegs; [simpl; adds_steps|]. rewrite <- Hsegs in *.
  destruct (synthesis_phase E engine 0 segments w0) as [[temp_files n] w1] eqn:Hphase.
  assert (adds (well_reported engine) w0 w1) as Ha1.
  { unfold synthesis_phase in Hphase.
    pose proof (synthesis_loop_well_reported E engine segments Hvoices Hindices 0 [] 0%nat
                  (say SayStartSynthesis (calling (Makedirs TEMP_DIR) w0))) as Ha.
    rewrite Hphase in Ha. simpl in Ha. eapply adds_trans; [|exact Ha]. adds_steps. }
  destruct n as [|n].
  - rewrite (process_segments_aborts _ _ _ _ _ _ temp_files w1); [|congruence|exact Hphase].
    simpl. adds_steps.
  - rewrite (process_segments_assembles _ _ _ _ _ _ _ _ _ Hphase) by discriminate.
    eapply adds_trans; [exact Ha1|]. apply (adds_weaken assembly_only); [exact Hweak|].
    eapply adds_trans; [|apply cleanup_assembly].
    eapply adds_trans; [|apply export_final_assembly].
    eapply adds_trans; [|apply concatenation_loop_assembly]. adds_steps.
Qed.

(** The document of "input.txt" asks for voices 0 and 1 of a catalog
    of two. *)
Lemma voices_are_always_found_witness :
  unified_voices two_voices <> [] /\
  exists added,
    log (snd (process_and_concatenate fair_weather two_voices "input.txt" "out.wav"
                empty_world))
    = log empty_world ++ added /\
    Forall (well_reported two_voices) added.
Proof.
  split; [discriminate|].
  apply (voices_are_always_found fair_weather two_voices "input.txt" "out.wav" empty_world).
  discriminate.
Defined.

(** ** A segment whose voice is in the catalog *)

Lemma synthesize_one_in_range E engine default_voice_index i segment w vi r w' :
  voice_index segment < Z.of_nat (length (unified_voices engine)) ->
  synthesize_one E engine default_voice_index i segment w = (vi, r, w') ->
  vi = voice_index segment /\
  synthesize_segment E engine (text segment) (voice_index segment) (base_temp_path E i) w
  = (r, w').
Proof.
  intros Hrange%Z.leb_gt. unfold synthesize_one. rewrite Hrange.
  destruct (synthesize_segment _ _ _ _ _ _) as [r0 w1]. now intros [= <- <- <-].
Qed.

(** X15. A segment whose voice index is in the catalog, from 0 up to
    its size, is synthesized with the voice at that index, whatever
    the default: the segment is announced under that voice, its file
    is named after the segment and the engine of the voice, the
    provider is called (unless the voice is a local one and the local
    engine is not available), and the segment ends with its file among
    the temporary files or with the report that it failed. *)
Theorem in_range_voice_is_used (E : env) (engine : UnifiedTTSEngine)
    (default_voice_index : Z) (segments : list Segment) (w : world) (k : nat)
    (segment : Segment) (temp_files : list string) (successful_segments : nat)
    (w' : world) :
  segments !! k = Some segment ->
  0 <= voice_index segment < Z.of_nat (length (unified_voices engine)) ->
  synthesis_phase E engine default_voice_index segments w
  = (temp_files, successful_segments, w') ->
  exists voice,
    unified_voices engine !! Z.to_nat (voice_index segment) = Some voice /\
    Printed (SaySynthesizing (voice_index segment) (Voice.engine voice) (text segment)
               (base_temp_path E k +:+ ext_of (Voice.engine voice))) ∈ log w' /\
    (Voice.engine voice = edge_tts \/ pyttsx3_available engine = true ->
     Called (Provider voice (text segment)
               (base_temp_path E k +:+ ext_of (Voice.engine voice))) ∈ log w') /\
    (base_temp_path E k +:+ ext_of (Voice.engine voice) ∈ temp_files \/
     Printed (ErrSegmentFailed k) ∈ log w').
Proof.
  intros Hk [H0 Hlt] Hphase. unfold synthesis_phase in Hphase.
  destruct (lookup_lt_is_Some_2 (unified_voices engine) (Z.to_nat (voice_index segment)))
    as [voice Hvoice]; [lia|].
  exists voice. split; [exact Hvoice|].
  assert (get_voice_by_index engine (voice_index segment) = Some voice) as Hget.
  { unfold get_voice_by_index. now rewrite py_getitem_front by lia. }
  pose proof Hphase as (w_k & vi & r & w_k' & Hone & Ha & Hr & Hfail)%(synthesis_loop_turn
    _ _ _ _ _ _ _ _ _ _ _ k segment); [|exact Hk].
  simpl in Hone, Hfail.
  apply synthesize_one_in_range in Hone as (_ & Hrun); [|exact Hlt].
  pose proof (synthesize_segment_found _ _ _ _ _ _ _ _ _ Hget Hrun)
    as (Hsaid & Hcalled & Hres).
  split; [eapply adds_elem; eauto|].
  split; [intros Hav; eapply adds_elem; eauto|].
  destruct Hres as [->| ->]; [right; now apply Hfail|left].
  apply synthesis_loop_spec in Hphase as (-> & _). simpl.
  apply list_elem_of_omap. eexists. split; [|reflexivity].
  eapply list_elem_of_lookup_2. exact Hr.
Qed.

(** The second segment of "input.txt" asks for voice 1 of two. *)
Lemma in_range_voice_is_used_witness :
  let segments := parse_content "Hello. /voice=1 Bye" 0 in
  let segment := {| text := "Bye"; voice_index := 1 |} in
  let run := synthesis_phase fair_weather two_voices 0 segments empty_world in
  segments !! 1%nat = Some segment /\
  0 <= voice_index segment < Z.of_nat (length (unified_voices two_voices)) /\
  exists voice,
    unified_voices two_voices !! Z.to_nat (voice_index segment) = Some voice /\
    Printed (SaySynthesizing (voice_index segment) (Voice.engine voice) (text segment)
               (base_temp_path fair_weather 1 +:+ ext_of (Voice.engine voice)))
      ∈ log (snd run) /\
    (Voice.engine voice = edge_tts \/ pyttsx3_available two_voices = true ->
     Called (Provider voice (text segment)
               (base_temp_path fair_weather 1 +:+ ext_of (Voice.engine voice)))
       ∈ log (snd run)) /\
    (base_temp_path fair_weather 1 +:+ ext_of (Voice.engine voice) ∈ fst (fst run) \/
     Printed (ErrSegmentFailed 1) ∈ log (snd run)).
Proof.
  intros segments segment run.
  split; [reflexivity|]. split; [simpl; lia|].
  apply (in_range_voice_is_used fair_weather two_voices 0 segments empty_world 1 segment
           (fst (fst run)) (snd (fst run)) (snd run)).
  - reflexivity.
  - simpl. lia.
  - subst run. now destruct (synthesis_phase _ _ _ _ _) as [[tf n] w1].
Defined.

(** ** When [synthesize_segment] succeeds *)

(** X16. [synthesize_segment] returns a path exactly when the voice is
    found, its engine can be used (an online voice, or a local one
    with the local engine available), the provider does not raise, and
    the file is there afterwards, written by the provider or left
    there from before.  The path is then the base path with ".wav" for
    a local voice and ".mp3" for an online one, and the file holds what
    the provider wrote, or what it held before when the provider wrote
    nothing. *)
Theorem synthesize_segment_succeeds_iff (E : env) (self : UnifiedTTSEngine)
    (text : string) (voice_index : Z) (base_output_path : string) (w : world)
    (path : string) :
  fst (synthesize_segment E self text voice_index base_output_path w) = Some path <->
  exists voice audio,
    get_voice_by_index self voice_index = Some voice /\
    path = base_output_path +:+ ext_of (Voice.engine voice) /\
    (Voice.engine voice = edge_tts \/ pyttsx3_available self = true) /\
    raised (provider E voice text path) = false /\
    match written (provider E voice text path) with
    | Some a => Some a
    | None => files w !! path
    end = Some audio /\
    files (snd (synthesize_segment E self text voice_index base_output_path w)) !! path
    = Some audio.
Proof.
  unfold synthesize_segment.
  destruct (get_voice_by_index self voice_index) as [voice|]; simpl.
  2:{ split; [discriminate|]. intros (v & a & H & _). discriminate H. }
  set (p := base_output_path +:+ ext_of (Voice.engine voice)).
  set (w2 := say (SayDebug _ _) (say (SaySynthesizing _ _ _ _) w)).
  assert (files w2 = files w) as Hw2 by reflexivity. clearbody w2.
  assert (fst (try_provider E voice text p w2) = Some path <->
          path = p /\ raised (provider E voice text p) = false /\
          exists audio,
            match written (provider E voice text p) with
            | Some a => Some a
            | None => files w !! p
            end = Some audio /\
            files (snd (try_provider E voice text p w2)) !! p = Some audio) as Htry.
  { unfold try_provider. rewrite <- Hw2.
    destruct (written (provider E voice text p)) as [a|] eqn:Hwritten;
      destruct (raised (provider E voice text p)); simpl.
    - split; [discriminate|]. intros (_ & H & _). discriminate H.
    - unfold path_exists. simpl. rewrite lookup_insert_eq.
      rewrite bool_decide_eq_true_2 by eauto. simpl. rewrite lookup_insert_eq.
      split; [intros [= <-]|intros (-> & _)]; eauto.
    - split; [discriminate|]. intros (_ & H & _). discriminate H.
    - unfold path_exists. simpl.
      destruct (files w2 !! p) as [old|] eqn:Hold.
      + rewrite bool_decide_eq_true_2 by eauto. simpl. rewrite Hold.
        split; [intros [= <-]|intros (-> & _)]; eauto.
      + rewrite bool_decide_eq_false_2 by (intros [x Hx]; discriminate Hx). simpl.
        split; [discriminate|]. intros (_ & _ & a & H & _). discriminate H. }
  destruct (Voice.engine voice) eqn:Hkind.
  - destruct (pyttsx3_available self) eqn:Hav; simpl.
    + etransitivity; [exact Htry|]. split.
      * intros (-> & Hr & audio & Ha & Hf). exists voice, audio. rewrite Hkind. auto 10.
      * intros (v & audio & [= <-] & -> & _ & Hr & Ha & Hf). rewrite Hkind in *. eauto.
    + split; [discriminate|].
      intros (v & audio & [= <-] & _ & [Hk|Hk] & _); [congruence|discriminate].
  - etransitivity; [exact Htry|]. split.
    + intros (-> & Hr & audio & Ha & Hf). exists voice, audio. rewrite Hkind. auto 10.
    + intros (v & audio & [= <-] & -> & _ & Hr & Ha & Hf). rewrite Hkind in *. eauto.
Qed.

(** ** The format of the export *)

Lemma char_lower_idempotent c : Char.lower (Char.lower c) = Char.lower c.
Proof. destruct c as [[] [] [] [] [] [] [] []]; reflexivity. Qed.

Lemma lower_idempotent s : Str.lower (Str.lower s) = Str.lower s.
Proof.
  induction s as [|c s IH]; simpl; [reflexivity|].
  now rewrite char_lower_idempotent, IH.
Qed.

(** X17. The format handed to the exporter is never empty, holds no
    dot and no capital letter, and the path handed to it is the output
    path as given, or the output path with ".wav" after it, in which
    case the format is "wav". *)
Theorem export_format_is_plain (E : env) (output_file : string) :
  let target := export_target E output_file in
  Str.is_empty (snd target) = false /\
  Str.all (fun c => negb (Ascii.eqb c ".")) (snd target) = true /\
  Str.lower (snd target) = snd target /\
  (fst target = output_file \/
   fst target = output_file +:+ ".wav" /\ snd target = "wav").
Proof.
  unfold export_target.
  destruct (splitext_extension E output_file) as [->|(e & -> & Hdots)].
  - simpl. auto 10.
  - rewrite (strip_dot_of_extension e Hdots).
    destruct (Str.is_empty (Str.lower e)) eqn:Hempty; simpl; [auto 10|].
    split; [exact Hempty|]. split; [now apply lower_without_dots|].
    split; [apply lower_idempotent|now left].
Qed.
